(** * tsc: Gorilla-style time-series compression (huangaz/tsc)

    A shallow embedding of package [tsc] (the [Series] encoder and decoder)
    together with the properties of its specification.

    Conventions.
    - Go's [uint64] and [int64] are modelled as [Z] with the wrap-around
      written out ([wrap64], [int64]).
    - A [float64] is modelled by its IEEE-754 bit pattern, a [Z] in
      [0, 2^64): [math.Float64bits] and [math.Float64frombits] are then the
      identity, and equality of modelled values is bit-pattern equality.
    - Go's [(value, error)] results are pairs whose second component is
      [option Err], [None] standing for [nil]; the receiver [s *Series] is
      threaded explicitly, so that the state left behind by a failing call
      can be observed. *)

From Stdlib Require Import ZArith List Bool Lia.
Import ListNotations.
Local Open Scope Z_scope.

(** ** Machine integers *)

(** Truncation to an unsigned 64-bit word. *)
Definition wrap64 (x : Z) : Z := x mod 2 ^ 64.

(** Reinterpretation of the low 64 bits as a signed 64-bit integer; also the
    result of [int64] arithmetic, which wraps. *)
Definition int64 (x : Z) : Z := (x + 2 ^ 63) mod 2 ^ 64 - 2 ^ 63.

(** [x << n] on a [uint64]: shift counts of 64 and more give 0. *)
Definition shl64 (x n : Z) : Z :=
  if n <? 64 then wrap64 (Z.shiftl x n) else 0.

(** [x >> n] on a [uint64]. *)
Definition shr64 (x n : Z) : Z :=
  if n <? 64 then Z.shiftr x n else 0.

(** [float64(x)] for an [int64] [x]: round to nearest, ties to even, on 53
    significant bits.  The result is an integer, returned as such. *)
Definition float64_of_int64 (x : Z) : Z :=
  let a := Z.abs x in
  let n := Z.log2 a + 1 in
  if n <=? 53 then x
  else
    let sh := n - 53 in
    let q := Z.shiftr a sh in
    let r := a mod 2 ^ sh in
    let half := 2 ^ (sh - 1) in
    let q' := if (half <? r) || ((r =? half) && Z.odd q) then q + 1 else q in
    Z.sgn x * Z.shiftl q' sh.

(** [int64(f)] for an integral [float64] [f].  Go leaves the result
    implementation-dependent when [f] is out of range; the value chosen here
    is the one amd64 produces. *)
Definition int64_of_float64 (f : Z) : Z :=
  if (- 2 ^ 63 <=? f) && (f <? 2 ^ 63) then f else - 2 ^ 63.

(** ** Package bitUtil *)

Module BitUtil.

(** The only error of the package. *)
Inductive Err : Type := ErrShortRead.

Definition error : Type := option Err.

(** Modelled from the spec: type [bitUtil.BitStream], whose source is not
    part of the repository snapshot.  The spec describes it as an ordered
    sequence of bits addressed from zero, with the counters [num_bits] (the
    bits written) and [read_pos]; the byte buffer [Stream] holds
    [ceil(num_bits / 8)] bytes.  [Bits] is that sequence, [NumBits] its
    length. *)
Record BitStream : Type := mkBitStream {
  Bits : list bool;
  BitPos : Z
}.

Definition NumBits (bs : BitStream) : Z := Z.of_nat (length (Bits bs)).

(** Modelled from the spec: [len(Stream)], by the invariant
    [byte_len == ceil(num_bits / 8)]. *)
Definition StreamLen (bs : BitStream) : Z := (NumBits bs + 7) / 8.

(** The low [w] bits of [v], most significant first. *)
Fixpoint bits_of (w : nat) (v : Z) : list bool :=
  match w with
  | O => []
  | S w' => Z.testbit v (Z.of_nat w') :: bits_of w' v
  end.

(** The number a sequence of bits denotes, most significant first. *)
Definition val_of (l : list bool) : Z :=
  fold_left (fun acc b => 2 * acc + Z.b2z b) l 0.

(** Modelled from the spec: [append_bits(v, width)] writes the low [width]
    bits of [v], most significant first, at index [num_bits], which advances
    by [width]; nothing else changes. *)
Definition AddValueToBitStream (bs : BitStream) (v width : Z) : BitStream :=
  mkBitStream (Bits bs ++ bits_of (Z.to_nat width) v) (BitPos bs).

(** Modelled from the spec: [read_bits(width)] reads [width] bits from
    [read_pos], most significant first, right-justified in a 64-bit word, and
    advances [read_pos] by [width]; it fails with [ErrShortRead], leaving the
    cursor where it was, when [read_pos + width > num_bits]. *)
Definition ReadValueFromBitStream (bs : BitStream) (width : Z)
  : (Z * error) * BitStream :=
  if NumBits bs <? BitPos bs + width then ((0, Some ErrShortRead), bs)
  else
    let l := firstn (Z.to_nat width) (skipn (Z.to_nat (BitPos bs)) (Bits bs)) in
    ((wrap64 (val_of l), None), mkBitStream (Bits bs) (BitPos bs + width)).

(** Offset of the first [false] among the first [limit] bits of [l]: [Some k]
    when it is found at offset [k] or, with [k = limit], when [limit] bits
    were all [true]; [None] when [l] ends before that. *)
Fixpoint first_zero (limit : nat) (l : list bool) : option nat :=
  match limit with
  | O => Some O
  | S limit' =>
      match l with
      | [] => None
      | false :: _ => Some O
      | true :: l' => option_map S (first_zero limit' l')
      end
  end.

(** Modelled from the spec: [find_first_zero_within(max)].  A zero at offset
    [k < max] advances [read_pos] by [k + 1] and returns [k]; [max] ones
    advance it by [max] and return [max]; running out of bits first fails
    with [ErrShortRead]. *)
Definition FindTheFirstZerobit (bs : BitStream) (limit : Z)
  : (Z * error) * BitStream :=
  match first_zero (Z.to_nat limit) (skipn (Z.to_nat (BitPos bs)) (Bits bs)) with
  | None => ((0, Some ErrShortRead), bs)
  | Some k =>
      let k := Z.of_nat k in
      let adv := if k <? limit then k + 1 else k in
      ((k, None), mkBitStream (Bits bs) (BitPos bs + adv))
  end.

(** Number of trailing zero bits of a positive number. *)
Fixpoint pos_ctz (p : positive) : Z :=
  match p with
  | xO q => 1 + pos_ctz q
  | _ => 0
  end.

(** Modelled from the spec: [Clz], the number of leading zero bits of a
    64-bit word. *)
Definition Clz (x : Z) : Z :=
  match x with
  | Zpos _ => 63 - Z.log2 x
  | _ => 64
  end.

(** Modelled from the spec: [Ctz], the number of trailing zero bits of a
    64-bit word. *)
Definition Ctz (x : Z) : Z :=
  match x with
  | Zpos p => pos_ctz p
  | _ => 64
  end.

End BitUtil.

(** ** Package tsc *)

Module Tsc.
Import BitUtil.

Definition DEFAULT_DELTA : Z := 60.
Definition BITS_FOR_FIRST_TIMESTAMP : Z := 32.
Definition LEADING_ZEROS_LENGTH_BITS : Z := 5.
Definition BLOCK_SIZE_LENGTH_BITS : Z := 6.
Definition BLOCK_SIZE_ADJUSTMENT : Z := 1.
Definition MAX_LEADING_ZEROS_LENGTH : Z :=
  Z.shiftl 1 LEADING_ZEROS_LENGTH_BITS - 1.

Record Series : Type := mkSeries {
  Bs : BitStream;
  prevTimeWrite : Z;
  prevTimeDeltaWrite : Z;
  prevTimeRead : Z;
  prevTimeDeltaRead : Z;
  prevValueWrite : Z;
  prevLeadingWrite : Z;
  prevTrailingWrite : Z;
  prevValueRead : Z;
  prevLeadingRead : Z;
  prevTrailingRead : Z
}.

(** [var s tsc.Series]: the zero value. *)
Definition newSeries : Series :=
  mkSeries (mkBitStream [] 0) 0 0 0 0 0 0 0 0 0 0.

(** Field assignments. *)
Definition set_Bs (s : Series) (x : BitStream) : Series :=
  mkSeries x (prevTimeWrite s) (prevTimeDeltaWrite s) (prevTimeRead s)
    (prevTimeDeltaRead s) (prevValueWrite s) (prevLeadingWrite s)
    (prevTrailingWrite s) (prevValueRead s) (prevLeadingRead s)
    (prevTrailingRead s).
Definition set_prevTimeWrite (s : Series) (x : Z) : Series :=
  mkSeries (Bs s) x (prevTimeDeltaWrite s) (prevTimeRead s)
    (prevTimeDeltaRead s) (prevValueWrite s) (prevLeadingWrite s)
    (prevTrailingWrite s) (prevValueRead s) (prevLeadingRead s)
    (prevTrailingRead s).
Definition set_prevTimeDeltaWrite (s : Series) (x : Z) : Series :=
  mkSeries (Bs s) (prevTimeWrite s) x (prevTimeRead s)
    (prevTimeDeltaRead s) (prevValueWrite s) (prevLeadingWrite s)
    (prevTrailingWrite s) (prevValueRead s) (prevLeadingRead s)
    (prevTrailingRead s).
Definition set_prevTimeRead (s : Series) (x : Z) : Series :=
  mkSeries (Bs s) (prevTimeWrite s) (prevTimeDeltaWrite s) x
    (prevTimeDeltaRead s) (prevValueWrite s) (prevLeadingWrite s)
    (prevTrailingWrite s) (prevValueRead s) (prevLeadingRead s)
    (prevTrailingRead s).
Definition set_prevTimeDeltaRead (s : Series) (x : Z) : Series :=
  mkSeries (Bs s) (prevTimeWrite s) (prevTimeDeltaWrite s) (prevTimeRead s)
    x (prevValueWrite s) (prevLeadingWrite s)
    (prevTrailingWrite s) (prevValueRead s) (prevLeadingRead s)
    (prevTrailingRead s).
Definition set_prevValueWrite (s : Series) (x : Z) : Series :=
  mkSeries (Bs s) (prevTimeWrite s) (prevTimeDeltaWrite s) (prevTimeRead s)
    (prevTimeDeltaRead s) x (prevLeadingWrite s)
    (prevTrailingWrite s) (prevValueRead s) (prevLeadingRead s)
    (prevTrailingRead s).
Definition set_prevLeadingWrite (s : Series) (x : Z) : Series :=
  mkSeries (Bs s) (prevTimeWrite s) (prevTimeDeltaWrite s) (prevTimeRead s)
    (prevTimeDeltaRead s) (prevValueWrite s) x
    (prevTrailingWrite s) (prevValueRead s) (prevLeadingRead s)
    (prevTrailingRead s).
Definition set_prevTrailingWrite (s : Series) (x : Z) : Series :=
  mkSeries (Bs s) (prevTimeWrite s) (prevTimeDeltaWrite s) (prevTimeRead s)
    (prevTimeDeltaRead s) (prevValueWrite s) (prevLeadingWrite s)
    x (prevValueRead s) (prevLeadingRead s)
    (prevTrailingRead s).
Definition set_prevValueRead (s : Series) (x : Z) : Series :=
  mkSeries (Bs s) (prevTimeWrite s) (prevTimeDeltaWrite s) (prevTimeRead s)
    (prevTimeDeltaRead s) (prevValueWrite s) (prevLeadingWrite s)
    (prevTrailingWrite s) x (prevLeadingRead s)
    (prevTrailingRead s).
Definition set_prevLeadingRead (s : Series) (x : Z) : Series :=
  mkSeries (Bs s) (prevTimeWrite s) (prevTimeDeltaWrite s) (prevTimeRead s)
    (prevTimeDeltaRead s) (prevValueWrite s) (prevLeadingWrite s)
    (prevTrailingWrite s) (prevValueRead s) x
    (prevTrailingRead s).
Definition set_prevTrailingRead (s : Series) (x : Z) : Series :=
  mkSeries (Bs s) (prevTimeWrite s) (prevTimeDeltaWrite s) (prevTimeRead s)
    (prevTimeDeltaRead s) (prevValueWrite s) (prevLeadingWrite s)
    (prevTrailingWrite s) (prevValueRead s) (prevLeadingRead s)
    x.

Record timestampEncoding : Type := mkEnc {
  bitsForvalue : Z;
  controlValue : Z;
  controlValueBitLength : Z
}.

Definition timestampEncodings : list timestampEncoding :=
  [ mkEnc 7 2 2; mkEnc 9 6 3; mkEnc 12 14 4; mkEnc 32 15 4 ].

(** [timestampEncodings[i]]; the index is always below 4 where it is used. *)
Definition enc (i : Z) : timestampEncoding :=
  nth (Z.to_nat i) timestampEncodings (mkEnc 0 0 0).

(** [s.Bs.AddValueToBitStream(v, width)]. *)
Definition addValue (s : Series) (v width : Z) : Series :=
  set_Bs s (AddValueToBitStream (Bs s) v width).

(** *** The writer *)

(** The loop of [appendTimestamp], entered at index [i] with [n] iterations
    left: the first encoding wide enough is written, then [break]. *)
Fixpoint appendTimestamp_loop (n : nat) (i : Z) (s : Series)
    (deltaOfDelta absValue : Z) : Series :=
  match n with
  | O => s
  | S n' =>
      if absValue <? Z.shiftl 1 (bitsForvalue (enc i) - 1) then
        let s := addValue s (controlValue (enc i))
                   (controlValueBitLength (enc i)) in
        let encodedValue :=
          wrap64 (int64 (deltaOfDelta
                         + Z.shiftl 1 (bitsForvalue (enc i) - 1))) in
        addValue s encodedValue (bitsForvalue (enc i))
      else appendTimestamp_loop n' (i + 1) s deltaOfDelta absValue
  end.

Definition appendTimestamp (s : Series) (timestamp : Z) : Series :=
  if StreamLen (Bs s) =? 0 then
    let s := addValue s timestamp BITS_FOR_FIRST_TIMESTAMP in
    let s := set_prevTimeWrite s timestamp in
    set_prevTimeDeltaWrite s DEFAULT_DELTA
  else
    let delta := int64 (timestamp - prevTimeWrite s) in
    let deltaOfDelta := int64 (delta - prevTimeDeltaWrite s) in
    if deltaOfDelta =? 0 then
      let s := set_prevTimeWrite s timestamp in
      addValue s 0 1
    else
      let deltaOfDelta :=
        if 0 <? deltaOfDelta then deltaOfDelta - 1 else deltaOfDelta in
      let absValue :=
        int64_of_float64 (Z.abs (float64_of_int64 deltaOfDelta)) in
      let s := appendTimestamp_loop 4 0 s deltaOfDelta absValue in
      let s := set_prevTimeWrite s timestamp in
      set_prevTimeDeltaWrite s delta.

Definition appendValue (s : Series) (value : Z) : Series :=
  let xorWithprev := Z.lxor value (prevValueWrite s) in
  if xorWithprev =? 0 then addValue s 0 1
  else
    let s := addValue s 1 1 in
    let leading := Clz xorWithprev in
    let trailing := Ctz xorWithprev in
    let leading :=
      if MAX_LEADING_ZEROS_LENGTH <? leading
      then MAX_LEADING_ZEROS_LENGTH else leading in
    let blockSize := wrap64 (64 - leading - trailing) in
    let expectedSize :=
      wrap64 (LEADING_ZEROS_LENGTH_BITS + BLOCK_SIZE_LENGTH_BITS + blockSize) in
    let prevBolckInformationSize :=
      wrap64 (64 - prevLeadingWrite s - prevTrailingWrite s) in
    let s :=
      if (prevLeadingWrite s <=? leading)
         && (prevTrailingWrite s <=? trailing)
         && (prevBolckInformationSize <? expectedSize)
      then
        let s := addValue s 1 1 in
        let blockValue := shr64 xorWithprev (prevTrailingWrite s) in
        addValue s blockValue prevBolckInformationSize
      else
        let s := addValue s 0 1 in
        let s := addValue s leading LEADING_ZEROS_LENGTH_BITS in
        let s := addValue s (wrap64 (blockSize - BLOCK_SIZE_ADJUSTMENT))
                   BLOCK_SIZE_LENGTH_BITS in
        let blockValue := shr64 xorWithprev trailing in
        let s := addValue s blockValue blockSize in
        let s := set_prevLeadingWrite s leading in
        set_prevTrailingWrite s trailing
    in
    set_prevValueWrite s value.

Definition Append (s : Series) (timestamp value : Z) : Series :=
  let s := appendTimestamp s timestamp in
  appendValue s value.

(** *** The reader *)

(** A method of [*Series] returning [(A, error)]. *)
Definition M (A : Type) : Type := Series -> (A * error) * Series.

Definition ret {A : Type} (a : A) : M A := fun s => ((a, None), s).

(** The zero value of a result type, returned next to a non-nil error. *)
Class Zero (A : Type) : Type := zero : A.
#[export] Instance Zero_Z : Zero Z := 0.
#[export] Instance Zero_unit : Zero unit := tt.

(** Sequencing with Go's [if err != nil { return zero, err }]. *)
Definition bind {A B : Type} `{Zero B} (c : M A) (k : A -> M B) : M B :=
  fun s =>
    let '((a, err), s') := c s in
    match err with
    | Some e => ((zero, Some e), s')
    | None => k a s'
    end.

Definition gets {A : Type} (f : Series -> A) : M A :=
  fun s => ((f s, None), s).

Definition assign (f : Series -> Series) : M unit :=
  fun s => ((tt, None), f s).

Notation "x <- c ;; k" := (bind c (fun x => k))
  (at level 61, c at next level, right associativity).
Notation "c ;;; k" := (bind c (fun _ => k))
  (at level 61, right associativity).

(** [s.Bs.ReadValueFromBitStream(width)]. *)
Definition readValue (width : Z) : M Z :=
  fun s =>
    let '(r, bs) := ReadValueFromBitStream (Bs s) width in (r, set_Bs s bs).

(** [s.Bs.FindTheFirstZerobit(limit)]. *)
Definition findZero (limit : Z) : M Z :=
  fun s =>
    let '(r, bs) := FindTheFirstZerobit (Bs s) limit in (r, set_Bs s bs).

Definition readNextTimestamp : M Z :=
  fun s =>
    if BitPos (Bs s) =? 0 then
      (assign (fun s => set_prevTimeDeltaRead s DEFAULT_DELTA) ;;;
       res <- readValue BITS_FOR_FIRST_TIMESTAMP ;;
       assign (fun s => set_prevTimeRead s res) ;;;
       ret res) s
    else
      (index <- findZero 4 ;;
       (if 0 <? index then
          let index := index - 1 in
          decodeValue <- readValue (bitsForvalue (enc index)) ;;
          let value := int64 decodeValue in
          let value :=
            int64 (value - Z.shiftl 1 (bitsForvalue (enc index) - 1)) in
          let value := if 0 <=? value then int64 (value + 1) else value in
          assign (fun s =>
            set_prevTimeDeltaRead s (int64 (prevTimeDeltaRead s + value)))
        else ret tt) ;;;
       assign (fun s =>
         set_prevTimeRead s
           (wrap64 (prevTimeRead s + wrap64 (prevTimeDeltaRead s)))) ;;;
       gets prevTimeRead) s.

Definition readNextValue : M Z :=
  nonZeroValue <- readValue 1 ;;
  if nonZeroValue =? 0 then gets prevValueRead
  else
    usepreviousBlockInformation <- readValue 1 ;;
    xorValue <-
      (if usepreviousBlockInformation =? 1 then
         pl <- gets prevLeadingRead ;;
         pt <- gets prevTrailingRead ;;
         xorValue <- readValue (wrap64 (64 - pl - pt)) ;;
         ret (shl64 xorValue pt)
       else
         leading <- readValue LEADING_ZEROS_LENGTH_BITS ;;
         blockSize <- readValue BLOCK_SIZE_LENGTH_BITS ;;
         let blockSize := wrap64 (blockSize + BLOCK_SIZE_ADJUSTMENT) in
         assign (fun s =>
           set_prevTrailingRead s (wrap64 (64 - leading - blockSize))) ;;;
         xorValue <- readValue blockSize ;;
         pt <- gets prevTrailingRead ;;
         assign (fun s => set_prevLeadingRead s leading) ;;;
         ret (shl64 xorValue pt)) ;;
    pv <- gets prevValueRead ;;
    let value := Z.lxor xorValue pv in
    assign (fun s => set_prevValueRead s value) ;;;
    ret value.

(** [Read] returns Go's triple [(timestamp, value, err)]. *)
Definition Read (s : Series) : (Z * Z * error) * Series :=
  let '((timestamp, err), s) := readNextTimestamp s in
  match err with
  | Some e => ((0, 0, Some e), s)
  | None =>
      let '((value, err), s) := readNextValue s in
      match err with
      | Some e => ((0, 0, Some e), s)
      | None => ((timestamp, value, None), s)
      end
  end.

(** Appending a list of samples, in order, and reading [n] times. *)
Definition AppendAll (s : Series) (l : list (Z * Z)) : Series :=
  fold_left (fun s p => Append s (fst p) (snd p)) l s.

Fixpoint ReadN (n : nat) (s : Series) : list (Z * Z * error) * Series :=
  match n with
  | O => ([], s)
  | S n' =>
      let '(r, s) := Read s in
      let '(rs, s) := ReadN n' s in
      (r :: rs, s)
  end.

(** [float64(n)] as a bit pattern, for an integer [0 < n < 2^53]: such an
    integer is represented exactly. *)
Definition float64_of_pos (n : Z) : Z :=
  let e := Z.log2 n in
  Z.lor (Z.shiftl (1023 + e) 52) (Z.shiftl (n - 2 ^ e) (52 - e)).

End Tsc.

(** ** Package main *)

Module Main.
Import BitUtil Tsc.

Record Point : Type := mkPoint {
  V : Z;
  T : Z
}.

(** A literal [{v, t}] of [TestData]: the values are whole numbers. *)
Definition point (v t : Z) : Point := mkPoint (float64_of_pos v) t.

Definition TestData : list Point :=
  [
    point 761 1440583200; point 727 1440583260; point 765 1440583320;
    point 706 1440583380; point 700 1440583440; point 679 1440583500;
    point 757 1440583560; point 708 1440583620; point 739 1440583680;
    point 707 1440583740; point 699 1440583800; point 740 1440583860;
    point 729 1440583920; point 766 1440583980; point 730 1440584040;
    point 715 1440584100; point 705 1440584160; point 693 1440584220;
    point 765 1440584280; point 724 1440584340; point 799 1440584400;
    point 761 1440584460; point 737 1440584520; point 766 1440584580;
    point 756 1440584640; point 719 1440584700; point 722 1440584760;
    point 801 1440584820; point 747 1440584880; point 731 1440584940;
    point 742 1440585000; point 744 1440585060; point 791 1440585120;
    point 750 1440585180; point 759 1440585240; point 809 1440585300;
    point 751 1440585360; point 705 1440585420; point 770 1440585480;
    point 792 1440585540; point 727 1440585600; point 762 1440585660;
    point 772 1440585720; point 721 1440585780; point 748 1440585840;
    point 753 1440585900; point 744 1440585960; point 716 1440586020;
    point 776 1440586080; point 659 1440586140; point 789 1440586200;
    point 766 1440586260; point 758 1440586320; point 690 1440586380;
    point 795 1440586440; point 770 1440586500; point 758 1440586560;
    point 723 1440586620; point 767 1440586680; point 765 1440586740;
    point 693 1440586800; point 706 1440586860; point 681 1440586920;
    point 727 1440586980; point 724 1440587040; point 780 1440587100;
    point 678 1440587160; point 696 1440587220; point 758 1440587280;
    point 740 1440587340; point 735 1440587400; point 700 1440587460;
    point 742 1440587520; point 747 1440587580; point 752 1440587640;
    point 734 1440587700; point 743 1440587760; point 732 1440587820;
    point 746 1440587880; point 770 1440587940; point 780 1440588000;
    point 710 1440588060; point 731 1440588120; point 712 1440588180;
    point 712 1440588240; point 741 1440588300; point 770 1440588360;
    point 770 1440588420; point 754 1440588480; point 718 1440588540;
    point 670 1440588600; point 775 1440588660; point 749 1440588720;
    point 795 1440588780; point 756 1440588840; point 741 1440588900;
    point 787 1440588960; point 721 1440589020; point 745 1440589080;
    point 782 1440589140; point 765 1440589200; point 780 1440589260;
    point 811 1440589320; point 790 1440589380; point 836 1440589440;
    point 743 1440589500; point 858 1440589560; point 739 1440589620;
    point 762 1440589680; point 770 1440589740; point 752 1440589800;
    point 763 1440589860; point 795 1440589920; point 792 1440589980;
    point 746 1440590040; point 786 1440590100; point 785 1440590160;
    point 774 1440590220; point 786 1440590280; point 718 1440590340
  ].

(** [math.IsNaN] on a bit pattern: exponent all ones, fraction not zero. *)
Definition isNaN (f : Z) : bool :=
  ((f / 2 ^ 52) mod 2 ^ 11 =? 2047) && negb (f mod 2 ^ 52 =? 0).

(** [a != b] on [float64]: a NaN differs from everything, the two zeros are
    equal, other values differ when their bit patterns do. *)
Definition float64_ne (a b : Z) : bool :=
  isNaN a || isNaN b
  || negb ((a =? b) || ((a mod 2 ^ 63 =? 0) && (b mod 2 ^ 63 =? 0))).

(** What [main] prints, line by line. *)
Inductive Line : Type :=
  | PrintError (err : Err)
  | PrintPoint (i timestamp value pT pV : Z)
  | PrintRatio (numBits rawBits : Z).

(** The first loop of [main]. *)
Definition appendData (data : list Point) (s : Series) : Series :=
  fold_left (fun s p => Append s (T p) (V p)) data s.

(** The second loop of [main], from index [i] on. *)
Fixpoint readBack (i : Z) (data : list Point) (s : Series)
  : list Line * Series :=
  match data with
  | [] => ([], s)
  | p :: data' =>
      let '((timestamp, value, err), s) := Read s in
      let out :=
        match err with
        | Some e => [PrintError e]
        | None =>
            if negb (T p =? timestamp) || float64_ne (V p) value
            then [PrintPoint i timestamp value (T p) (V p)]
            else []
        end in
      let '(outs, s) := readBack (i + 1) data' s in
      (out ++ outs, s)
  end.

(** [main] over the array [data]; the last line is the quotient of the two
    numbers of [PrintRatio], as [float64]. *)
Definition main_on (data : list Point) : list Line :=
  let s := appendData data newSeries in
  let '(out, s) := readBack 0 data s in
  out ++ [PrintRatio (NumBits (Bs s)) (Z.of_nat (length data) * 12 * 8)].

Definition main : list Line := main_on TestData.

End Main.

(** * Vocabulary of the properties *)

Import BitUtil Tsc.

(** ** The read cursor *)

(** The bits from the read cursor on. *)
Definition unread (s : Series) : list bool :=
  skipn (Z.to_nat (BitPos (Bs s))) (Bits (Bs s)).

(** The series with its cursor moved [n] bits on. *)
Definition advance (s : Series) (n : Z) : Series :=
  set_Bs s (mkBitStream (Bits (Bs s)) (BitPos (Bs s) + n)).

(** The cursor is inside the stream and [l] is what remains to be read. *)
Definition at_frame (s : Series) (l : list bool) : Prop :=
  0 <= BitPos (Bs s) <= NumBits (Bs s) /\ unread s = l.

(** ** Timestamp frames *)

(** The first-order delta and the delta of delta that [appendTimestamp]
    computes for [timestamp] in state [s]. *)
Definition ts_delta (s : Series) (timestamp : Z) : Z :=
  int64 (timestamp - prevTimeWrite s).

Definition ts_dd (s : Series) (timestamp : Z) : Z :=
  int64 (ts_delta s timestamp - prevTimeDeltaWrite s).

(** The adjusted delta of delta: positive values move down by one. *)
Definition adj_dd (dd : Z) : Z := if 0 <? dd then dd - 1 else dd.

(** The bucket of a magnitude [a]: the first row of [timestampEncodings]
    whose payload is wide enough, the last row otherwise. *)
Definition bucket (a : Z) : Z :=
  if a <? 64 then 0 else if a <? 256 then 1 else if a <? 2048 then 2 else 3.

(** The frame of a non-zero delta of delta: the control prefix of its bucket,
    then the biased payload. *)
Definition ts_frame (dd : Z) : list bool :=
  let e := enc (bucket (Z.abs (adj_dd dd))) in
  bits_of (Z.to_nat (controlValueBitLength e)) (controlValue e)
  ++ bits_of (Z.to_nat (bitsForvalue e))
       (adj_dd dd + 2 ^ (bitsForvalue e - 1)).

(** What [readNextTimestamp] leaves behind after a frame of [n] bits that
    carries the delta of delta [dd]. *)
Definition after_ts_frame (r : Series) (dd : Z) (n : Z) : Series :=
  let r := advance r n in
  let r := set_prevTimeDeltaRead r (int64 (prevTimeDeltaRead r + dd)) in
  set_prevTimeRead r (wrap64 (prevTimeRead r + wrap64 (prevTimeDeltaRead r))).

(** ** Written bits *)

(** The series with the bits [l] written at the end of its stream. *)
Definition wrote (s : Series) (l : list bool) : Series :=
  set_Bs s (mkBitStream (Bits (Bs s) ++ l) (BitPos (Bs s))).

(** The bits of [s'] past the length of the stream of [s]: what a writer that
    took [s] to [s'] has emitted. *)
Definition written (s s' : Series) : list bool :=
  skipn (length (Bits (Bs s))) (Bits (Bs s')).

(** The frames of one timestamp, of one value, of one sample. *)
Definition ts_bits (s : Series) (timestamp : Z) : list bool :=
  written s (appendTimestamp s timestamp).

Definition value_bits (s : Series) (value : Z) : list bool :=
  written s (appendValue s value).

Definition sample_bits (s : Series) (timestamp value : Z) : list bool :=
  written s (Append s timestamp value).

(** ** Value frames *)

(** The leading-zero count after the clamp to 5 bits, and the block size,
    that [appendValue] computes for the XOR [x]. *)
Definition leading_of (x : Z) : Z :=
  if MAX_LEADING_ZEROS_LENGTH <? Clz x then MAX_LEADING_ZEROS_LENGTH else Clz x.

Definition block_size (x : Z) : Z := 64 - leading_of x - Ctz x.

(** The width of the block the writer described last. *)
Definition prev_block_width (s : Series) : Z :=
  64 - prevLeadingWrite s - prevTrailingWrite s.

(** The test of [appendValue] for the frame that uses the previous block. *)
Definition reuse_cond (s : Series) (x : Z) : bool :=
  (prevLeadingWrite s <=? leading_of x)
  && (prevTrailingWrite s <=? Ctz x)
  && (prev_block_width s <? 5 + 6 + block_size x).

(** The two frames of a non-zero XOR. *)
Definition reuse_frame (s : Series) (x : Z) : list bool :=
  [true; true]
  ++ bits_of (Z.to_nat (prev_block_width s))
       (Z.shiftr x (prevTrailingWrite s)).

Definition fresh_frame (x : Z) : list bool :=
  [true; false]
  ++ bits_of 5 (leading_of x)
  ++ bits_of 6 (block_size x - 1)
  ++ bits_of (Z.to_nat (block_size x)) (Z.shiftr x (Ctz x)).

(** What holds of the value fields of every writer: the previous value is a
    64-bit pattern and the recorded block lies inside the word. *)
Definition writer_wf (s : Series) : Prop :=
  0 <= prevValueWrite s < 2 ^ 64
  /\ 0 <= prevLeadingWrite s <= 31
  /\ 0 <= prevTrailingWrite s
  /\ prevLeadingWrite s + prevTrailingWrite s <= 63.

(** ** Reader and writer in step *)

(** The reader of [r] has consumed exactly what the writer of [w] has
    written, [rest] is still to be read, and the reader's fields repeat the
    writer's. *)
Record synced (w r : Series) (rest : list bool) : Prop := mkSynced {
  sync_bits : Bits (Bs r) = Bits (Bs w) ++ rest;
  sync_pos : BitPos (Bs r) = NumBits (Bs w);
  sync_time : prevTimeRead r = prevTimeWrite w;
  sync_delta : prevTimeDeltaRead r = prevTimeDeltaWrite w;
  sync_value : prevValueRead r = prevValueWrite w;
  sync_leading : prevLeadingRead r = prevLeadingWrite w;
  sync_trailing : prevTrailingRead r = prevTrailingWrite w
}.

(** The timestamps the format can carry from state [w]: the first one in 32
    bits, a later one with an adjusted delta of delta below [2^31] in
    magnitude. *)
Definition ts_ok (w : Series) (t : Z) : Prop :=
  if StreamLen (Bs w) =? 0 then 0 <= t < 2 ^ 32
  else 0 <= t < 2 ^ 64 /\ Z.abs (adj_dd (ts_dd w t)) < 2 ^ 31.

Fixpoint samples_ok (w : Series) (l : list (Z * Z)) : Prop :=
  match l with
  | [] => True
  | p :: l' =>
      ts_ok w (fst p) /\ 0 <= snd p < 2 ^ 64
      /\ samples_ok (Append w (fst p) (snd p)) l'
  end.

(** [w'] differs from [w] in writer fields and in bits added at the end. *)
Definition writer_step (w w' : Series) : Prop :=
  (exists l, Bits (Bs w') = Bits (Bs w) ++ l)
  /\ BitPos (Bs w') = BitPos (Bs w)
  /\ prevTimeRead w' = prevTimeRead w
  /\ prevTimeDeltaRead w' = prevTimeDeltaRead w
  /\ prevValueRead w' = prevValueRead w
  /\ prevLeadingRead w' = prevLeadingRead w
  /\ prevTrailingRead w' = prevTrailingRead w.

(** The successful results of reading the samples [l]. *)
Definition results (l : list (Z * Z)) : list (Z * Z * error) :=
  map (fun p => (fst p, snd p, None)) l.

(** ** Streams of samples *)

(** [n] samples of the constant stream [t_i = t0 + 60 * i], [v_i = c], from
    index [i] on; the sums are [uint64] sums. *)
Fixpoint const_from (t0 c i : Z) (n : nat) : list (Z * Z) :=
  match n with
  | O => []
  | S n' => (wrap64 (t0 + 60 * i), c) :: const_from t0 c (i + 1) n'
  end.

Definition const_stream (t0 c : Z) (n : nat) : list (Z * Z) :=
  const_from t0 c 0 n.

(** The size in bits of the frame of [c] when it is the first value of a
    series. *)
Definition first_value_frame (c : Z) : Z :=
  Z.of_nat (length (value_bits newSeries c)).

(** ** Proof automation *)

(** Rows of the table, by index. *)
Ltac enc_eval :=
  change (enc 0) with (mkEnc 7 2 2) in *;
  change (enc 1) with (mkEnc 9 6 3) in *;
  change (enc 2) with (mkEnc 12 14 4) in *;
  change (enc 3) with (mkEnc 32 15 4) in *;
  cbn [bitsForvalue controlValue controlValueBitLength] in *.

(** Projections of assigned records. *)
Ltac fields :=
  cbn [Bs prevTimeWrite prevTimeDeltaWrite prevTimeRead prevTimeDeltaRead
       prevValueWrite prevLeadingWrite prevTrailingWrite prevValueRead
       prevLeadingRead prevTrailingRead set_Bs set_prevTimeWrite
       set_prevTimeDeltaWrite set_prevTimeRead set_prevTimeDeltaRead
       set_prevValueWrite set_prevLeadingWrite set_prevTrailingWrite
       set_prevValueRead set_prevLeadingRead set_prevTrailingRead
       wrote advance addValue AddValueToBitStream Bits BitPos].

Ltac fields_in H :=
  cbn [Bs prevTimeWrite prevTimeDeltaWrite prevTimeRead prevTimeDeltaRead
       prevValueWrite prevLeadingWrite prevTrailingWrite prevValueRead
       prevLeadingRead prevTrailingRead set_Bs set_prevTimeWrite
       set_prevTimeDeltaWrite set_prevTimeRead set_prevTimeDeltaRead
       set_prevValueWrite set_prevLeadingWrite set_prevTrailingWrite
       set_prevValueRead set_prevLeadingRead set_prevTrailingRead
       wrote advance addValue AddValueToBitStream Bits BitPos] in H.

(** ** Sequences with moderate steps *)

(** Samples after a timestamp [prev]: every timestamp is a [uint64] at less
    than [2^30] from the one before, every value a 64-bit pattern. *)
Fixpoint gentle_from (prev : Z) (l : list (Z * Z)) : Prop :=
  match l with
  | [] => True
  | p :: l' =>
      0 <= fst p < 2 ^ 64 /\ Z.abs (fst p - prev) < 2 ^ 30
      /\ 0 <= snd p < 2 ^ 64 /\ gentle_from (fst p) l'
  end.

(** A sequence that starts below [2^32] and goes on in such steps. *)
Definition gentle (l : list (Z * Z)) : Prop :=
  match l with
  | [] => True
  | p :: l' =>
      0 <= fst p < 2 ^ 32 /\ 0 <= snd p < 2 ^ 64 /\ gentle_from (fst p) l'
  end.

(** ** What a reader may change *)

(** [r'] differs from [r] in reader fields and in a cursor moved forward,
    inside the stream if it was. *)
Definition reader_step (r r' : Series) : Prop :=
  Bits (Bs r') = Bits (Bs r)
  /\ prevTimeWrite r' = prevTimeWrite r
  /\ prevTimeDeltaWrite r' = prevTimeDeltaWrite r
  /\ prevValueWrite r' = prevValueWrite r
  /\ prevLeadingWrite r' = prevLeadingWrite r
  /\ prevTrailingWrite r' = prevTrailingWrite r
  /\ BitPos (Bs r) <= BitPos (Bs r')
  /\ (0 <= BitPos (Bs r) <= NumBits (Bs r) ->
      BitPos (Bs r') <= NumBits (Bs r')).

(** Every run of the method [c], failing or not, is a [reader_step]. *)
Definition only_reads {A : Type} (c : M A) : Prop :=
  forall r a e r', c r = ((a, e), r') -> reader_step r r'.

(** [r'] is [r] with bits added to the stream and writer fields changed:
    the same reader at the same place of a longer stream. *)
Definition extends (r r' : Series) : Prop :=
  (exists l, Bits (Bs r') = Bits (Bs r) ++ l)
  /\ BitPos (Bs r') = BitPos (Bs r)
  /\ 0 <= BitPos (Bs r)
  /\ prevTimeRead r' = prevTimeRead r
  /\ prevTimeDeltaRead r' = prevTimeDeltaRead r
  /\ prevValueRead r' = prevValueRead r
  /\ prevLeadingRead r' = prevLeadingRead r
  /\ prevTrailingRead r' = prevTrailingRead r.

(** A successful run of [c] is repeated, with the same result, on every
    extension of the series. *)
Definition stable {A : Type} (c : M A) : Prop :=
  forall r r' a r1,
    extends r r' -> c r = ((a, None), r1) ->
    exists r1', c r' = ((a, None), r1') /\ extends r1 r1'.

(** ** The driver *)

(** The array of [main] as a list of samples. *)
Definition samples (data : list Main.Point) : list (Z * Z) :=
  map (fun p => (Main.T p, Main.V p)) data.

(** * Properties *)

(** ** Bit sequences *)

Section BitLemmas.

Lemma bits_of_length (w : nat) (v : Z) : length (bits_of w v) = w.
Proof. induction w as [|w IH]; simpl; [reflexivity | now rewrite IH]. Qed.

Lemma val_of_acc (l : list bool) (acc : Z) :
  fold_left (fun a b => 2 * a + Z.b2z b) l acc
  = acc * 2 ^ Z.of_nat (length l) + val_of l.
Proof.
  unfold val_of. revert acc.
  induction l as [|b l IH]; intros acc.
  - simpl. lia.
  - cbn [fold_left length]. rewrite IH, (IH (2 * 0 + Z.b2z b)).
    rewrite Nat2Z.inj_succ, Z.pow_succ_r by lia. ring.
Qed.

Lemma val_of_cons (b : bool) (l : list bool) :
  val_of (b :: l) = Z.b2z b * 2 ^ Z.of_nat (length l) + val_of l.
Proof.
  unfold val_of at 1. cbn [fold_left]. rewrite val_of_acc.
  destruct b; cbn [Z.b2z]; lia.
Qed.

Lemma val_of_bounds (l : list bool) :
  0 <= val_of l < 2 ^ Z.of_nat (length l).
Proof.
  induction l as [|b l IH].
  - cbv. split; [discriminate | reflexivity].
  - rewrite val_of_cons. cbn [length].
    rewrite Nat2Z.inj_succ, Z.pow_succ_r by lia.
    destruct b; cbn [Z.b2z]; lia.
Qed.

Lemma val_of_bits_of (w : nat) (v : Z) :
  val_of (bits_of w v) = v mod 2 ^ Z.of_nat w.
Proof.
  induction w as [|w IH].
  - cbn. now rewrite Z.mod_1_r.
  - cbn [bits_of]. rewrite val_of_cons, bits_of_length, IH.
    rewrite Nat2Z.inj_succ, Z.pow_succ_r by lia.
    rewrite Z.testbit_spec' by lia.
    rewrite (Z.mul_comm 2), Z.rem_mul_r by lia. ring.
Qed.

(** Within its width a value is written without loss. *)
Lemma val_of_bits_of_small (w : nat) (v : Z) :
  0 <= v < 2 ^ Z.of_nat w -> val_of (bits_of w v) = v.
Proof. intros H. rewrite val_of_bits_of. now apply Z.mod_small. Qed.

End BitLemmas.

(** ** The read cursor *)

Section Cursor.

Lemma at_frame_length (s : Series) (l : list bool) :
  at_frame s l ->
  Z.of_nat (length l) = NumBits (Bs s) - BitPos (Bs s).
Proof.
  intros [Hpos Hl]. unfold unread in Hl. unfold NumBits in *.
  rewrite <- Hl, length_skipn. lia.
Qed.

Lemma at_frame_advance (s : Series) (l rest : list bool) :
  at_frame s (l ++ rest) ->
  at_frame (advance s (Z.of_nat (length l))) rest.
Proof.
  intros H. pose proof (at_frame_length _ _ H) as Hlen.
  destruct H as [Hpos Hl].
  rewrite length_app, Nat2Z.inj_add in Hlen.
  unfold at_frame, unread, advance, NumBits in *. cbn [Bs set_Bs Bits BitPos].
  split; [lia|].
  rewrite Z2Nat.inj_add, Nat2Z.id by lia.
  rewrite Nat.add_comm, <- skipn_skipn, Hl.
  rewrite skipn_app, skipn_all, Nat.sub_diag. reflexivity.
Qed.

(** Reading as many bits as [l] has, when [l] is next in the stream. *)
Lemma readValue_frame (s : Series) (l rest : list bool) :
  at_frame s (l ++ rest) ->
  readValue (Z.of_nat (length l)) s
  = ((wrap64 (val_of l), None), advance s (Z.of_nat (length l))).
Proof.
  intros H. pose proof (at_frame_length _ _ H) as Hlen.
  destruct H as [Hpos Hl].
  rewrite length_app, Nat2Z.inj_add in Hlen.
  unfold readValue, ReadValueFromBitStream, advance.
  destruct (Z.ltb_spec (NumBits (Bs s)) (BitPos (Bs s) + Z.of_nat (length l)))
    as [Hlt | _]; [lia|].
  unfold unread in Hl. rewrite Hl, Nat2Z.id.
  rewrite firstn_app, firstn_all, Nat.sub_diag. cbn [firstn].
  now rewrite app_nil_r.
Qed.

(** Reading past the end of the stream fails and leaves the series as it
    was. *)
Lemma readValue_short (s : Series) (width : Z) :
  NumBits (Bs s) < BitPos (Bs s) + width ->
  readValue width s = ((0, Some ErrShortRead), s).
Proof.
  intros H. unfold readValue, ReadValueFromBitStream.
  destruct (Z.ltb_spec (NumBits (Bs s)) (BitPos (Bs s) + width)); [|lia].
  now destruct s.
Qed.

(** The scan for the first zero bit, when the control bits [c] are next. *)
Lemma findZero_frame (s : Series) (c rest : list bool) (limit : Z) (k : nat) :
  at_frame s (c ++ rest) ->
  first_zero (Z.to_nat limit) (c ++ rest) = Some k ->
  Z.of_nat (length c)
  = (if Z.of_nat k <? limit then Z.of_nat k + 1 else Z.of_nat k) ->
  findZero limit s = ((Z.of_nat k, None), advance s (Z.of_nat (length c))).
Proof.
  intros [Hpos Hl] Hk Hc.
  unfold findZero, FindTheFirstZerobit, advance.
  unfold unread in Hl. rewrite Hl, Hk, Hc. reflexivity.
Qed.

Lemma findZero_short (s : Series) (limit : Z) :
  0 < limit -> unread s = [] ->
  findZero limit s = ((0, Some ErrShortRead), s).
Proof.
  intros Hlim Hl. unfold findZero, FindTheFirstZerobit.
  unfold unread in Hl. rewrite Hl.
  destruct (Z.to_nat limit) eqn:E; [lia|]. cbn [first_zero].
  now destruct s.
Qed.

End Cursor.

(** Sequencing after a call that succeeded. *)
Lemma bind_ok {A B : Type} `{Zero B} (c : M A) (k : A -> M B)
    (s s' : Series) (a : A) :
  c s = ((a, None), s') -> bind c k s = k a s'.
Proof. intros Hc. unfold bind. now rewrite Hc. Qed.

(** Sequencing after a call that failed. *)
Lemma bind_err {A B : Type} `{Zero B} (c : M A) (k : A -> M B)
    (s s' : Series) (a : A) (e : Err) :
  c s = ((a, Some e), s') -> bind c k s = ((zero, Some e), s').
Proof. intros Hc. unfold bind. now rewrite Hc. Qed.

Lemma bind_gets {A B : Type} `{Zero B} (f : Series -> A) (k : A -> M B)
    (s : Series) :
  bind (gets f) k s = k (f s) s.
Proof. reflexivity. Qed.

Lemma bind_assign {B : Type} `{Zero B} (g : Series -> Series)
    (k : unit -> M B) (s : Series) :
  bind (assign g) k s = k tt (g s).
Proof. reflexivity. Qed.

(** ** Machine arithmetic *)

Section Arith.

Lemma wrap64_small (x : Z) : 0 <= x < 2 ^ 64 -> wrap64 x = x.
Proof. intros H. unfold wrap64. now apply Z.mod_small. Qed.

Lemma int64_small (x : Z) : - 2 ^ 63 <= x < 2 ^ 63 -> int64 x = x.
Proof. intros H. unfold int64. rewrite Z.mod_small; lia. Qed.

Lemma int64_range (x : Z) : - 2 ^ 63 <= int64 x < 2 ^ 63.
Proof.
  unfold int64. pose proof (Z.mod_pos_bound (x + 2 ^ 63) (2 ^ 64)). lia.
Qed.

Lemma wrap64_range (x : Z) : 0 <= wrap64 x < 2 ^ 64.
Proof. unfold wrap64. apply Z.mod_pos_bound. lia. Qed.

(** [int64] only depends on the residue modulo [2^64]. *)
Lemma int64_congr (x y k : Z) : x = y + k * 2 ^ 64 -> int64 x = int64 y.
Proof.
  intros ->. unfold int64.
  replace (y + k * 2 ^ 64 + 2 ^ 63) with (y + 2 ^ 63 + k * 2 ^ 64) by ring.
  now rewrite Z.mod_add by lia.
Qed.

Lemma int64_eqm (x : Z) : exists k, int64 x = x + k * 2 ^ 64.
Proof.
  exists (- ((x + 2 ^ 63) / 2 ^ 64)). unfold int64.
  rewrite Z.mod_eq by lia. ring.
Qed.

Lemma wrap64_eqm (x : Z) : exists k, wrap64 x = x + k * 2 ^ 64.
Proof.
  exists (- (x / 2 ^ 64)). unfold wrap64. rewrite Z.mod_eq by lia. ring.
Qed.

(** Below [2^53] the conversion to [float64] and back is exact. *)
Lemma abs_float64_exact (x : Z) :
  Z.abs x < 2 ^ 53 ->
  int64_of_float64 (Z.abs (float64_of_int64 x)) = Z.abs x.
Proof.
  intros H. unfold float64_of_int64.
  assert (Hlog : Z.log2 (Z.abs x) + 1 <= 53).
  { destruct (Z.eq_dec (Z.abs x) 0) as [E | E].
    - rewrite E. cbn. lia.
    - assert (Z.log2 (Z.abs x) < 53) by (apply Z.log2_lt_pow2; lia). lia. }
  destruct (Z.leb_spec (Z.log2 (Z.abs x) + 1) 53); [|lia].
  unfold int64_of_float64.
  destruct (Z.leb_spec (- 2 ^ 63) (Z.abs x)); [|lia].
  destruct (Z.ltb_spec (Z.abs x) (2 ^ 63)); [reflexivity | lia].
Qed.

End Arith.

(** ** The timestamp codec *)

Section Timestamps.

Lemma appendTimestamp_loop_cases (s : Series) (dd a : Z) :
  appendTimestamp_loop 4 0 s dd a
  = if a <? 2 ^ 31 then
      let e := enc (bucket a) in
      addValue (addValue s (controlValue e) (controlValueBitLength e))
        (wrap64 (int64 (dd + 2 ^ (bitsForvalue e - 1)))) (bitsForvalue e)
    else s.
Proof.
  unfold bucket. cbn [appendTimestamp_loop].
  change (Z.shiftl 1 (bitsForvalue (enc 0) - 1)) with 64.
  change (Z.shiftl 1 (bitsForvalue (enc (0 + 1)) - 1)) with 256.
  change (Z.shiftl 1 (bitsForvalue (enc (0 + 1 + 1)) - 1)) with 2048.
  change (Z.shiftl 1 (bitsForvalue (enc (0 + 1 + 1 + 1)) - 1)) with (2 ^ 31).
  destruct (Z.ltb_spec a 64); [destruct (Z.ltb_spec a (2 ^ 31)); [reflexivity | lia]|].
  destruct (Z.ltb_spec a 256); [destruct (Z.ltb_spec a (2 ^ 31)); [reflexivity | lia]|].
  destruct (Z.ltb_spec a 2048); [destruct (Z.ltb_spec a (2 ^ 31)); [reflexivity | lia]|].
  destruct (Z.ltb_spec a (2 ^ 31)); reflexivity.
Qed.

Lemma bucket_cases (a : Z) :
  0 <= a < 2 ^ 31 ->
  (bucket a = 0 /\ a < 64) \/ (bucket a = 1 /\ 64 <= a < 256)
  \/ (bucket a = 2 /\ 256 <= a < 2048) \/ (bucket a = 3 /\ 2048 <= a < 2 ^ 31).
Proof.
  intros H. unfold bucket.
  destruct (Z.ltb_spec a 64); [lia|].
  destruct (Z.ltb_spec a 256); [lia|].
  destruct (Z.ltb_spec a 2048); lia.
Qed.


(** [bucket] is the smallest row that is wide enough. *)
Lemma bucket_smallest (a : Z) :
  0 <= a < 2 ^ 31 ->
  0 <= bucket a <= 3
  /\ a < 2 ^ (bitsForvalue (enc (bucket a)) - 1)
  /\ forall j, 0 <= j < bucket a -> 2 ^ (bitsForvalue (enc j) - 1) <= a.
Proof.
  intros H.
  destruct (bucket_cases a H) as [[-> Ha] | [[-> Ha] | [[-> Ha] | [-> Ha]]]];
    (split; [lia|]); (split; [enc_eval; lia|]); intros j Hj;
    assert (Hc : j = 0 \/ j = 1 \/ j = 2) by lia;
    destruct Hc as [-> | [-> | ->]]; enc_eval; lia.
Qed.

Lemma adj_dd_nonzero (dd : Z) :
  dd <> 0 ->
  ((0 <? dd) = true /\ 0 <= adj_dd dd /\ dd = adj_dd dd + 1)
  \/ ((0 <? dd) = false /\ adj_dd dd < 0 /\ dd = adj_dd dd).
Proof.
  intros H. unfold adj_dd. destruct (Z.ltb_spec 0 dd); lia.
Qed.

(** On a non-empty stream [len(s.Bs.Stream) == 0] is false. *)
Lemma StreamLen_zero (bs : BitStream) : StreamLen bs = 0 <-> Bits bs = [].
Proof.
  unfold StreamLen, NumBits. split.
  - intros H. destruct (Bits bs) as [|b l]; [reflexivity|].
    cbn [length] in H. rewrite Nat2Z.inj_succ in H.
    assert (1 <= (Z.succ (Z.of_nat (length l)) + 7) / 8).
    { apply Z.div_le_lower_bound; lia. }
    lia.
  - intros ->. reflexivity.
Qed.

(** The payload of a frame fits the width of its bucket. *)
Lemma payload_range (dd : Z) :
  Z.abs (adj_dd dd) < 2 ^ 31 ->
  let e := enc (bucket (Z.abs (adj_dd dd))) in
  0 < adj_dd dd + 2 ^ (bitsForvalue e - 1) < 2 ^ bitsForvalue e
  /\ 0 < bitsForvalue e <= 32.
Proof.
  intros Habs.
  assert (Ha : 0 <= Z.abs (adj_dd dd) < 2 ^ 31) by lia.
  destruct (bucket_cases _ Ha) as [[Hb Hr] | [[Hb Hr] | [[Hb Hr] | [Hb Hr]]]];
    rewrite Hb; enc_eval; cbv zeta; lia.
Qed.

(** The state [appendTimestamp] leaves for a timestamp that is not the first
    and whose adjusted delta of delta is below [2^31] in magnitude. *)
Lemma appendTimestamp_in_range (s : Series) (t : Z) :
  StreamLen (Bs s) <> 0 ->
  ts_dd s t <> 0 ->
  Z.abs (adj_dd (ts_dd s t)) < 2 ^ 31 ->
  let e := enc (bucket (Z.abs (adj_dd (ts_dd s t)))) in
  appendTimestamp s t
  = set_prevTimeDeltaWrite
      (set_prevTimeWrite
         (addValue (addValue s (controlValue e) (controlValueBitLength e))
            (adj_dd (ts_dd s t) + 2 ^ (bitsForvalue e - 1)) (bitsForvalue e))
         t)
      (ts_delta s t).
Proof.
  intros Hlen Hdd Habs e. unfold appendTimestamp.
  destruct (Z.eqb_spec (StreamLen (Bs s)) 0) as [E | _]; [contradiction|].
  fold (ts_delta s t). fold (ts_dd s t).
  destruct (Z.eqb_spec (ts_dd s t) 0) as [E | _]; [contradiction|].
  fold (adj_dd (ts_dd s t)).
  rewrite abs_float64_exact by lia.
  rewrite appendTimestamp_loop_cases.
  destruct (Z.ltb_spec (Z.abs (adj_dd (ts_dd s t))) (2 ^ 31)) as [_ | Hge];
    [|lia].
  cbv zeta. fold e.
  destruct (payload_range _ Habs) as [He Hb]. fold e in He, Hb.
  assert (2 ^ bitsForvalue e <= 2 ^ 32) by (apply Z.pow_le_mono_r; lia).
  rewrite int64_small, wrap64_small by lia. reflexivity.
Qed.

(** Outside that range the loop finds no bucket: no bit is written. *)
Lemma appendTimestamp_out_of_range (s : Series) (t : Z) :
  StreamLen (Bs s) <> 0 ->
  2 ^ 31 <= Z.abs (adj_dd (ts_dd s t)) < 2 ^ 53 ->
  appendTimestamp s t
  = set_prevTimeDeltaWrite (set_prevTimeWrite s t) (ts_delta s t).
Proof.
  intros Hlen Habs. unfold appendTimestamp.
  destruct (Z.eqb_spec (StreamLen (Bs s)) 0) as [E | _]; [contradiction|].
  fold (ts_delta s t). fold (ts_dd s t).
  destruct (Z.eqb_spec (ts_dd s t) 0) as [E | _].
  { rewrite E in Habs. cbn in Habs. lia. }
  fold (adj_dd (ts_dd s t)).
  rewrite abs_float64_exact by lia.
  rewrite appendTimestamp_loop_cases.
  destruct (Z.ltb_spec (Z.abs (adj_dd (ts_dd s t))) (2 ^ 31)); [lia|].
  reflexivity.
Qed.

Lemma advance_advance (s : Series) (a b : Z) :
  advance (advance s a) b = advance s (a + b).
Proof.
  unfold advance. cbn [set_Bs Bs Bits BitPos]. now rewrite Z.add_assoc.
Qed.

(** Decoding one bucket: [k] ones of control, then [b] bits of payload. *)
Lemma readNextTimestamp_bucket (r : Series) (dd k b : Z)
    (c rest : list bool) :
  BitPos (Bs r) <> 0 ->
  dd <> 0 ->
  0 < k ->
  (forall l, first_zero (Z.to_nat 4) (c ++ l) = Some (Z.to_nat k)) ->
  Z.of_nat (length c) = (if k <? 4 then k + 1 else k) ->
  bitsForvalue (enc (k - 1)) = b ->
  0 < b <= 32 ->
  0 <= adj_dd dd + 2 ^ (b - 1) < 2 ^ b ->
  at_frame r (c ++ bits_of (Z.to_nat b) (adj_dd dd + 2 ^ (b - 1)) ++ rest) ->
  readNextTimestamp r
  = ((prevTimeRead (after_ts_frame r dd (Z.of_nat (length c) + b)), None),
     after_ts_frame r dd (Z.of_nat (length c) + b)).
Proof.
  intros Hpos Hdd Hk Hfz Hlen Hb Hb32 Hp Hfr.
  unfold readNextTimestamp.
  destruct (Z.eqb_spec (BitPos (Bs r)) 0) as [E | _]; [contradiction|].
  assert (Hfind : findZero 4 r
                  = ((k, None), advance r (Z.of_nat (length c)))).
  { rewrite <- (Z2Nat.id k) at 1 by lia.
    eapply findZero_frame; [exact Hfr | apply Hfz |].
    rewrite Z2Nat.id by lia. exact Hlen. }
  rewrite (bind_ok _ _ _ _ _ Hfind).
  destruct (Z.ltb_spec 0 k) as [_ | ?]; [|lia].
  rewrite Hb.
  pose proof (at_frame_advance _ _ _ Hfr) as Hfr2.
  pose proof (readValue_frame _ _ _ Hfr2) as Hread.
  rewrite bits_of_length, Z2Nat.id in Hread by lia.
  rewrite val_of_bits_of_small in Hread by (rewrite Z2Nat.id by lia; exact Hp).
  assert (2 ^ b <= 2 ^ 32) by (apply Z.pow_le_mono_r; lia).
  rewrite wrap64_small in Hread by lia.
  erewrite bind_ok; cycle 1.
  { erewrite bind_ok by exact Hread. reflexivity. }
  unfold bind, assign, gets.
  rewrite advance_advance.
  assert (Hpow : Z.shiftl 1 (b - 1) = 2 ^ (b - 1)).
  { rewrite Z.shiftl_1_l. reflexivity. }
  rewrite Hpow.
  assert (0 < 2 ^ (b - 1) <= 2 ^ 31).
  { split; [apply Z.pow_pos_nonneg; lia | apply Z.pow_le_mono_r; lia]. }
  assert (Hpb : 2 ^ b = 2 * 2 ^ (b - 1)).
  { rewrite <- Z.pow_succ_r by lia. f_equal. lia. }
  rewrite (int64_small (adj_dd dd + 2 ^ (b - 1))) by lia.
  replace (adj_dd dd + 2 ^ (b - 1) - 2 ^ (b - 1)) with (adj_dd dd) by ring.
  rewrite (int64_small (adj_dd dd)) by lia.
  assert (Hv : (if 0 <=? adj_dd dd then int64 (adj_dd dd + 1) else adj_dd dd)
               = dd).
  { destruct (adj_dd_nonzero dd Hdd) as [(_ & Hge & He) | (_ & Hlt & He)].
    - destruct (Z.leb_spec 0 (adj_dd dd)); [|lia].
      rewrite int64_small by lia. lia.
    - destruct (Z.leb_spec 0 (adj_dd dd)); lia. }
  rewrite Hv. reflexivity.
Qed.

(** The decoder on the frame the encoder writes for [dd]. *)
Lemma readNextTimestamp_frame (r : Series) (dd : Z) (rest : list bool) :
  BitPos (Bs r) <> 0 ->
  dd <> 0 ->
  Z.abs (adj_dd dd) < 2 ^ 31 ->
  at_frame r (ts_frame dd ++ rest) ->
  let r' := after_ts_frame r dd (Z.of_nat (length (ts_frame dd))) in
  readNextTimestamp r = ((prevTimeRead r', None), r') /\ at_frame r' rest.
Proof.
  intros Hpos Hdd Habs Hfr r'.
  assert (Hfr' : at_frame r' rest).
  { apply at_frame_advance in Hfr. exact Hfr. }
  split; [|exact Hfr'].
  assert (Ha : 0 <= Z.abs (adj_dd dd) < 2 ^ 31) by lia.
  pose proof (payload_range dd Habs) as Hp. cbv zeta in Hp.
  subst r'. unfold ts_frame in *. rewrite <- app_assoc in Hfr.
  rewrite length_app, !bits_of_length, Nat2Z.inj_add.
  destruct (bucket_cases _ Ha) as [[Hb Hr] | [[Hb Hr] | [[Hb Hr] | [Hb Hr]]]];
    rewrite Hb in *; enc_eval.
  - apply (readNextTimestamp_bucket r dd 1 7 [true; false] rest);
      try assumption; try reflexivity; lia.
  - apply (readNextTimestamp_bucket r dd 2 9 [true; true; false] rest);
      try assumption; try reflexivity; lia.
  - apply (readNextTimestamp_bucket r dd 3 12 [true; true; true; false] rest);
      try assumption; try reflexivity; lia.
  - apply (readNextTimestamp_bucket r dd 4 32 [true; true; true; true] rest);
      try assumption; try reflexivity; lia.
Qed.

Lemma addValue_wrote (s : Series) (v width : Z) :
  addValue s v width = wrote s (bits_of (Z.to_nat width) v).
Proof. reflexivity. Qed.

Lemma wrote_wrote (s : Series) (a b : list bool) :
  wrote (wrote s a) b = wrote s (a ++ b).
Proof.
  unfold wrote. cbn [set_Bs Bs Bits BitPos]. now rewrite app_assoc.
Qed.

Lemma written_wrote (s : Series) (l : list bool) : written s (wrote s l) = l.
Proof.
  unfold written, wrote. cbn [set_Bs Bs Bits].
  rewrite skipn_app, skipn_all, Nat.sub_diag. reflexivity.
Qed.

(** The first timestamp: 32 bits, and the default delta. *)
Lemma appendTimestamp_first (s : Series) (t : Z) :
  StreamLen (Bs s) = 0 ->
  appendTimestamp s t
  = set_prevTimeDeltaWrite
      (set_prevTimeWrite (wrote s (bits_of 32 t)) t) DEFAULT_DELTA.
Proof.
  intros H. unfold appendTimestamp. rewrite H. reflexivity.
Qed.

(** A later timestamp whose delta of delta is zero: one [0] bit. *)
Lemma appendTimestamp_same (s : Series) (t : Z) :
  StreamLen (Bs s) <> 0 ->
  ts_dd s t = 0 ->
  appendTimestamp s t = wrote (set_prevTimeWrite s t) [false].
Proof.
  intros Hlen Hdd. unfold appendTimestamp.
  destruct (Z.eqb_spec (StreamLen (Bs s)) 0) as [E | _]; [contradiction|].
  fold (ts_delta s t). fold (ts_dd s t). rewrite Hdd. reflexivity.
Qed.

(** A later timestamp in range: the frame of its delta of delta. *)
Lemma appendTimestamp_frame (s : Series) (t : Z) :
  StreamLen (Bs s) <> 0 ->
  ts_dd s t <> 0 ->
  Z.abs (adj_dd (ts_dd s t)) < 2 ^ 31 ->
  appendTimestamp s t
  = set_prevTimeDeltaWrite
      (set_prevTimeWrite (wrote s (ts_frame (ts_dd s t))) t) (ts_delta s t).
Proof.
  intros Hlen Hdd Habs.
  rewrite (appendTimestamp_in_range s t Hlen Hdd Habs). cbv zeta.
  rewrite !addValue_wrote, wrote_wrote. reflexivity.
Qed.

(** The first read of a timestamp takes 32 bits. *)
Lemma readNextTimestamp_first (r : Series) (t : Z) (rest : list bool) :
  BitPos (Bs r) = 0 ->
  at_frame r (bits_of 32 t ++ rest) ->
  let r' := set_prevTimeRead
              (advance (set_prevTimeDeltaRead r DEFAULT_DELTA) 32)
              (t mod 2 ^ 32) in
  readNextTimestamp r = ((t mod 2 ^ 32, None), r') /\ at_frame r' rest.
Proof.
  intros Hpos Hfr r'. split.
  - unfold readNextTimestamp. rewrite Hpos. cbn [Z.eqb].
    unfold assign at 1. unfold bind at 1.
    assert (Hfr2 : at_frame (set_prevTimeDeltaRead r DEFAULT_DELTA)
                     (bits_of 32 t ++ rest)) by exact Hfr.
    pose proof (readValue_frame _ _ _ Hfr2) as Hread.
    rewrite bits_of_length, val_of_bits_of in Hread.
    change (Z.of_nat 32) with 32 in Hread.
    rewrite wrap64_small in Hread
      by (pose proof (Z.mod_pos_bound t (2 ^ 32)); lia).
    unfold BITS_FOR_FIRST_TIMESTAMP.
    rewrite (bind_ok _ _ _ _ _ Hread). reflexivity.
  - apply at_frame_advance in Hfr. exact Hfr.
Qed.

(** A later read on a [0] bit: the delta stays, the time moves by it. *)
Lemma readNextTimestamp_same (r : Series) (rest : list bool) :
  BitPos (Bs r) <> 0 ->
  at_frame r (false :: rest) ->
  let r' := set_prevTimeRead (advance r 1)
              (wrap64 (prevTimeRead r + wrap64 (prevTimeDeltaRead r))) in
  readNextTimestamp r = ((prevTimeRead r', None), r') /\ at_frame r' rest.
Proof.
  intros Hpos Hfr r'. split.
  - unfold readNextTimestamp.
    destruct (Z.eqb_spec (BitPos (Bs r)) 0) as [E | _]; [contradiction|].
    assert (Hfind : findZero 4 r = ((0, None), advance r 1)).
    { apply (findZero_frame r [false] rest 4 0); [exact Hfr | |]; reflexivity. }
    rewrite (bind_ok _ _ _ _ _ Hfind). reflexivity.
  - apply (at_frame_advance r [false] rest) in Hfr. exact Hfr.
Qed.

End Timestamps.

(** ** The value codec *)

Section Values.

Lemma pos_ctz_nonneg (p : positive) : 0 <= pos_ctz p.
Proof. induction p; cbn [pos_ctz]; lia. Qed.

Lemma pos_ctz_divides (p : positive) :
  exists q, 0 < q /\ Zpos p = q * 2 ^ pos_ctz p.
Proof.
  induction p as [p _ | p [q [Hq IH]] | ]; cbn [pos_ctz].
  - exists (Zpos p~1). split; [lia | now rewrite Z.mul_1_r].
  - exists q. split; [exact Hq|].
    pose proof (pos_ctz_nonneg p).
    rewrite Z.pow_add_r, Z.pow_1_r by lia.
    rewrite Pos2Z.inj_xO, IH. ring.
  - exists 1. split; [lia | reflexivity].
Qed.

Lemma Ctz_spec (x : Z) :
  0 < x ->
  0 <= Ctz x /\ x mod 2 ^ Ctz x = 0 /\ 2 ^ Ctz x <= x.
Proof.
  intros Hx. destruct x as [|p|p]; try lia. cbn [Ctz].
  pose proof (pos_ctz_nonneg p) as Hn.
  destruct (pos_ctz_divides p) as [q [Hq He]].
  split; [exact Hn|]. split.
  - rewrite He. apply Z.mod_mul. apply Z.pow_nonzero; lia.
  - assert (0 < 2 ^ pos_ctz p) by (apply Z.pow_pos_nonneg; lia). nia.
Qed.

Lemma Clz_spec (x : Z) :
  0 < x < 2 ^ 64 ->
  0 <= Clz x <= 63 /\ 2 ^ (63 - Clz x) <= x < 2 ^ (64 - Clz x).
Proof.
  intros Hx. destruct x as [|p|p]; try lia. cbn [Clz].
  pose proof (Z.log2_spec (Zpos p) ltac:(lia)) as Hl.
  pose proof (Z.log2_nonneg (Zpos p)).
  assert (Z.log2 (Zpos p) < 64) by (apply Z.log2_lt_pow2; lia).
  replace (63 - (63 - Z.log2 (Zpos p))) with (Z.log2 (Zpos p)) by ring.
  replace (64 - (63 - Z.log2 (Zpos p))) with (Z.succ (Z.log2 (Zpos p)))
    by ring.
  lia.
Qed.

(** A non-zero word has at most 63 zero bits around its block. *)
Lemma Clz_Ctz_sum (x : Z) : 0 < x < 2 ^ 64 -> Clz x + Ctz x <= 63.
Proof.
  intros Hx.
  destruct (Clz_spec x Hx) as [Hc [_ Hlt]].
  destruct (Ctz_spec x (proj1 Hx)) as [Ht [_ Hle]].
  assert (Hp : 2 ^ Ctz x < 2 ^ (64 - Clz x)) by lia.
  apply Z.pow_lt_mono_r_iff in Hp; lia.
Qed.

Lemma leading_of_spec (x : Z) :
  0 < x < 2 ^ 64 ->
  0 <= leading_of x <= 31 /\ leading_of x <= Clz x
  /\ x < 2 ^ (64 - leading_of x).
Proof.
  intros Hx. destruct (Clz_spec x Hx) as [Hc [_ Hlt]].
  unfold leading_of. change MAX_LEADING_ZEROS_LENGTH with 31.
  destruct (Z.ltb_spec 31 (Clz x)).
  - repeat split; try lia.
    eapply Z.lt_le_trans; [exact Hlt|]. apply Z.pow_le_mono_r; lia.
  - repeat split; lia.
Qed.

Lemma block_size_range (x : Z) :
  0 < x < 2 ^ 64 -> 1 <= block_size x <= 64.
Proof.
  intros Hx. unfold block_size.
  pose proof (leading_of_spec x Hx). pose proof (Clz_Ctz_sum x Hx).
  pose proof (Ctz_spec x (proj1 Hx)). lia.
Qed.

(** A word whose low [n] bits are zero survives a shift right then left. *)
Lemma shift_roundtrip (x n : Z) :
  0 <= n -> x mod 2 ^ n = 0 -> Z.shiftl (Z.shiftr x n) n = x.
Proof.
  intros Hn Hm. rewrite Z.shiftl_mul_pow2, Z.shiftr_div_pow2 by lia.
  pose proof (Z.div_mod x (2 ^ n) ltac:(apply Z.pow_nonzero; lia)). lia.
Qed.

(** Zero low bits stay zero for a smaller count. *)
Lemma low_bits_zero_le (x n m : Z) :
  0 <= m <= n -> x mod 2 ^ n = 0 -> x mod 2 ^ m = 0.
Proof.
  intros Hm Hx.
  apply Z.mod_divide in Hx; [|apply Z.pow_nonzero; lia].
  destruct Hx as [q Hq]. rewrite Hq.
  replace n with ((n - m) + m) by ring. rewrite Z.pow_add_r by lia.
  rewrite Z.mul_assoc. apply Z.mod_mul. apply Z.pow_nonzero; lia.
Qed.

(** The block of a word below [2^(w + n)], shifted down by [n], fits [w]
    bits. *)
Lemma shiftr_fits (x n w : Z) :
  0 <= n -> 0 <= w -> 0 <= x < 2 ^ (w + n) -> 0 <= Z.shiftr x n < 2 ^ w.
Proof.
  intros Hn Hw Hx. rewrite Z.shiftr_div_pow2 by lia.
  assert (0 < 2 ^ n) by (apply Z.pow_pos_nonneg; lia).
  split; [apply Z.div_pos; lia|].
  apply Z.div_lt_upper_bound; [lia|].
  rewrite <- Z.pow_add_r by lia. now rewrite Z.add_comm.
Qed.

Lemma lxor_cancel (v p : Z) : Z.lxor (Z.lxor v p) p = v.
Proof. now rewrite Z.lxor_assoc, Z.lxor_nilpotent, Z.lxor_0_r. Qed.

Lemma lxor_range (a b : Z) :
  0 <= a < 2 ^ 64 -> 0 <= b < 2 ^ 64 -> 0 <= Z.lxor a b < 2 ^ 64.
Proof.
  intros Ha Hb.
  assert (Hnn : 0 <= Z.lxor a b) by (apply Z.lxor_nonneg; lia).
  split; [exact Hnn|].
  destruct (Z.eq_dec (Z.lxor a b) 0) as [E | E]; [rewrite E; lia|].
  apply Z.log2_lt_pow2; [lia|].
  eapply Z.le_lt_trans; [apply Z.log2_lxor; lia|].
  apply Z.max_lub_lt.
  - destruct (Z.eq_dec a 0) as [-> | ?]; [cbn; lia|].
    apply Z.log2_lt_pow2; lia.
  - destruct (Z.eq_dec b 0) as [-> | ?]; [cbn; lia|].
    apply Z.log2_lt_pow2; lia.
Qed.

(** An unchanged value: one [0] bit, no field changes. *)
Lemma appendValue_same (s : Series) (v : Z) :
  Z.lxor v (prevValueWrite s) = 0 -> appendValue s v = wrote s [false].
Proof. intros H. unfold appendValue. rewrite H. reflexivity. Qed.

(** The branch of [appendValue] for a changed value is decided by
    [reuse_cond], and writes [reuse_frame] or [fresh_frame]. *)
Lemma appendValue_changed (s : Series) (v : Z) :
  writer_wf s ->
  0 <= v < 2 ^ 64 ->
  Z.lxor v (prevValueWrite s) <> 0 ->
  let x := Z.lxor v (prevValueWrite s) in
  appendValue s v
  = if reuse_cond s x
    then set_prevValueWrite (wrote s (reuse_frame s x)) v
    else set_prevValueWrite
           (set_prevTrailingWrite
              (set_prevLeadingWrite (wrote s (fresh_frame x)) (leading_of x))
              (Ctz x)) v.
Proof.
  intros (Hpv & Hpl & Hpt & Hsum) Hv Hx x.
  assert (Hxr : 0 < x < 2 ^ 64).
  { pose proof (lxor_range v (prevValueWrite s) Hv Hpv). subst x. lia. }
  pose proof (leading_of_spec x Hxr) as (Hl & Hlc & _).
  pose proof (Ctz_spec x (proj1 Hxr)) as (Ht & _ & _).
  pose proof (Clz_Ctz_sum x Hxr) as Hcs.
  pose proof (block_size_range x Hxr) as Hbs.
  unfold appendValue. fold x.
  destruct (Z.eqb_spec x 0) as [E | _]; [contradiction|].
  fold (leading_of x). cbv zeta.
  change (prevLeadingWrite (addValue s 1 1)) with (prevLeadingWrite s).
  change (prevTrailingWrite (addValue s 1 1)) with (prevTrailingWrite s).
  change (prevTrailingWrite (addValue (addValue s 1 1) 1 1))
    with (prevTrailingWrite s).
  fold (block_size x). fold (prev_block_width s).
  unfold LEADING_ZEROS_LENGTH_BITS, BLOCK_SIZE_LENGTH_BITS,
    BLOCK_SIZE_ADJUSTMENT.
  rewrite (wrap64_small (block_size x)) by lia.
  rewrite (wrap64_small (5 + 6 + block_size x)) by lia.
  rewrite (wrap64_small (prev_block_width s)) by (unfold prev_block_width; lia).
  rewrite (wrap64_small (block_size x - 1)) by lia.
  fold (reuse_cond s x).
  destruct (reuse_cond s x) eqn:Hc.
  - unfold shr64. destruct (Z.ltb_spec (prevTrailingWrite s) 64); [|lia].
    rewrite !addValue_wrote, !wrote_wrote. reflexivity.
  - unfold shr64. destruct (Z.ltb_spec (Ctz x) 64); [|lia].
    rewrite !addValue_wrote, !wrote_wrote. reflexivity.
Qed.

(** Reading one bit. *)
Lemma readValue_bit (r : Series) (b : bool) (rest : list bool) :
  at_frame r (b :: rest) ->
  readValue 1 r = ((Z.b2z b, None), advance r 1)
  /\ at_frame (advance r 1) rest.
Proof.
  intros Hfr. split.
  - pose proof (readValue_frame r [b] rest Hfr) as H.
    change (Z.of_nat (length [b])) with 1 in H. rewrite H. now destruct b.
  - exact (at_frame_advance r [b] rest Hfr).
Qed.

(** Reading back a value written within its width. *)
Lemma readValue_bits (r : Series) (w v : Z) (rest : list bool) :
  0 <= w <= 64 ->
  0 <= v < 2 ^ w ->
  at_frame r (bits_of (Z.to_nat w) v ++ rest) ->
  readValue w r = ((v, None), advance r w) /\ at_frame (advance r w) rest.
Proof.
  intros Hw Hv Hfr.
  pose proof (readValue_frame _ _ _ Hfr) as Hread.
  pose proof (at_frame_advance _ _ _ Hfr) as Hadv.
  rewrite bits_of_length, Z2Nat.id in Hread, Hadv by lia.
  rewrite val_of_bits_of_small in Hread by (rewrite Z2Nat.id by lia; exact Hv).
  assert (2 ^ w <= 2 ^ 64) by (apply Z.pow_le_mono_r; lia).
  rewrite wrap64_small in Hread by lia.
  split; assumption.
Qed.

(** The decoder on a [0] control bit. *)
Lemma readNextValue_same (r : Series) (rest : list bool) :
  at_frame r (false :: rest) ->
  readNextValue r = ((prevValueRead r, None), advance r 1)
  /\ at_frame (advance r 1) rest.
Proof.
  intros Hfr. destruct (readValue_bit r false rest Hfr) as [Hread Hadv].
  split; [|exact Hadv].
  unfold readNextValue. rewrite (bind_ok _ _ _ _ _ Hread). reflexivity.
Qed.

(** The decoder on a frame that uses the previous block. *)
Lemma readNextValue_reuse (r : Series) (x : Z) (rest : list bool) :
  let pl := prevLeadingRead r in
  let pt := prevTrailingRead r in
  0 <= pl -> 0 <= pt -> pl + pt <= 63 ->
  0 <= x < 2 ^ (64 - pl) ->
  x mod 2 ^ pt = 0 ->
  at_frame r ([true; true]
              ++ bits_of (Z.to_nat (64 - pl - pt)) (Z.shiftr x pt) ++ rest) ->
  let v := Z.lxor x (prevValueRead r) in
  let r' := set_prevValueRead (advance r (2 + (64 - pl - pt))) v in
  readNextValue r = ((v, None), r') /\ at_frame r' rest.
Proof.
  intros pl pt Hpl Hpt Hsum Hx Hlow Hfr v r'.
  destruct (readValue_bit r true _ Hfr) as [Hr1 Hf1].
  destruct (readValue_bit _ true _ Hf1) as [Hr2 Hf2].
  assert (Hfit : 0 <= Z.shiftr x pt < 2 ^ (64 - pl - pt)).
  { apply shiftr_fits; try lia.
    replace (64 - pl - pt + pt) with (64 - pl) by ring. exact Hx. }
  destruct (readValue_bits _ (64 - pl - pt) _ rest ltac:(lia) Hfit Hf2)
    as [Hr3 Hf3].
  rewrite !advance_advance in Hr3, Hf3.
  split.
  - unfold readNextValue.
    rewrite (bind_ok _ _ _ _ _ Hr1). cbn [Z.b2z Z.eqb].
    rewrite (bind_ok _ _ _ _ _ Hr2). cbn [Z.b2z Z.eqb Pos.eqb].
    rewrite advance_advance.
    erewrite bind_ok; cycle 1.
    { rewrite !bind_gets.
      change (prevLeadingRead (advance r (1 + 1))) with pl.
      change (prevTrailingRead (advance r (1 + 1))) with pt.
      rewrite (wrap64_small (64 - pl - pt)) by lia.
      erewrite bind_ok by exact Hr3. reflexivity. }
    unfold gets, assign, bind, ret. cbn [prevValueRead advance set_Bs].
    unfold shl64. destruct (Z.ltb_spec pt 64); [|lia].
    rewrite shift_roundtrip by assumption.
    assert (2 ^ (64 - pl) <= 2 ^ 64) by (apply Z.pow_le_mono_r; lia).
    rewrite wrap64_small by lia.
    replace (1 + 1 + (64 - pl - pt)) with (2 + (64 - pl - pt)) by ring.
    reflexivity.
  - replace (1 + (1 + (64 - pl - pt))) with (2 + (64 - pl - pt)) in Hf3
      by ring.
    exact Hf3.
Qed.

(** The decoder on a frame that describes its own block. *)
Lemma readNextValue_fresh (r : Series) (x : Z) (rest : list bool) :
  0 < x < 2 ^ 64 ->
  at_frame r (fresh_frame x ++ rest) ->
  let v := Z.lxor x (prevValueRead r) in
  let r' := set_prevValueRead
              (set_prevLeadingRead
                 (set_prevTrailingRead (advance r (13 + block_size x)) (Ctz x))
                 (leading_of x)) v in
  readNextValue r = ((v, None), r') /\ at_frame r' rest.
Proof.
  intros Hx Hfr v r'.
  pose proof (leading_of_spec x Hx) as (Hl & Hlc & Hlt).
  pose proof (Ctz_spec x (proj1 Hx)) as (Ht & Hlow & _).
  pose proof (Clz_Ctz_sum x Hx) as Hcs.
  pose proof (block_size_range x Hx) as Hbs.
  unfold fresh_frame in Hfr. rewrite <- !app_assoc in Hfr.
  destruct (readValue_bit r true _ Hfr) as [Hr1 Hf1].
  destruct (readValue_bit _ false _ Hf1) as [Hr2 Hf2].
  rewrite advance_advance in Hr2, Hf2. change (1 + 1) with 2 in Hr2, Hf2.
  destruct (readValue_bits _ 5 (leading_of x) _ ltac:(lia) ltac:(lia) Hf2)
    as [Hr3 Hf3].
  rewrite advance_advance in Hr3, Hf3. change (2 + 5) with 7 in Hr3, Hf3.
  destruct (readValue_bits _ 6 (block_size x - 1) _ ltac:(lia) ltac:(lia) Hf3)
    as [Hr4 Hf4].
  rewrite advance_advance in Hr4, Hf4. change (7 + 6) with 13 in Hr4, Hf4.
  assert (Hfit : 0 <= Z.shiftr x (Ctz x) < 2 ^ block_size x).
  { apply shiftr_fits; try lia.
    replace (block_size x + Ctz x) with (64 - leading_of x)
      by (unfold block_size; ring).
    lia. }
  pose (r4 := set_prevTrailingRead (advance r 13) (Ctz x)).
  assert (Hf4' : at_frame r4
            (bits_of (Z.to_nat (block_size x)) (Z.shiftr x (Ctz x)) ++ rest))
    by exact Hf4.
  destruct (readValue_bits _ (block_size x) _ rest ltac:(lia) Hfit Hf4')
    as [Hr5 Hf5].
  split.
  - unfold readNextValue.
    rewrite (bind_ok _ _ _ _ _ Hr1). cbn [Z.b2z Z.eqb].
    rewrite (bind_ok _ _ _ _ _ Hr2). cbn [Z.b2z Z.eqb Pos.eqb].
    unfold LEADING_ZEROS_LENGTH_BITS, BLOCK_SIZE_LENGTH_BITS,
      BLOCK_SIZE_ADJUSTMENT.
    erewrite bind_ok; cycle 1.
    { rewrite (bind_ok _ _ _ _ _ Hr3).
      rewrite (bind_ok _ _ _ _ _ Hr4).
      replace (block_size x - 1 + 1) with (block_size x) by ring.
      rewrite (wrap64_small (block_size x)) by lia.
      replace (wrap64 (64 - leading_of x - block_size x)) with (Ctz x)
        by (unfold block_size; rewrite wrap64_small; lia).
      rewrite bind_assign. fold r4.
      rewrite (bind_ok _ _ _ _ _ Hr5).
      rewrite bind_gets, bind_assign.
      change (prevTrailingRead (advance r4 (block_size x))) with (Ctz x).
      unfold shl64. destruct (Z.ltb_spec (Ctz x) 64); [|lia].
      rewrite shift_roundtrip by assumption.
      rewrite wrap64_small by lia. reflexivity. }
    rewrite bind_gets, bind_assign. unfold ret. subst r4.
    unfold advance. cbn [set_prevTrailingRead set_Bs Bs Bits BitPos].
    subst r' v. unfold advance.
    replace (BitPos (Bs r) + 13 + block_size x)
      with (BitPos (Bs r) + (13 + block_size x)) by ring.
    reflexivity.
  - subst r4 r'. rewrite <- (advance_advance r 13 (block_size x)).
    exact Hf5.
Qed.

End Values.

(** ** The writer only writes *)

Section WriterOnly.

Lemma writer_step_refl (w : Series) : writer_step w w.
Proof.
  unfold writer_step. repeat split. exists []. now rewrite app_nil_r.
Qed.

Lemma writer_step_trans (a b c : Series) :
  writer_step a b -> writer_step b c -> writer_step a c.
Proof.
  intros ([l1 H1] & Ha) ([l2 H2] & Hb). unfold writer_step. split.
  - exists (l1 ++ l2). now rewrite H2, H1, app_assoc.
  - intuition congruence.
Qed.

Lemma writer_step_wrote (w : Series) (l : list bool) :
  writer_step w (wrote w l).
Proof. unfold writer_step. repeat split. now exists l. Qed.

Lemma writer_step_addValue (w : Series) (v width : Z) :
  writer_step w (addValue w v width).
Proof. rewrite addValue_wrote. apply writer_step_wrote. Qed.

(** Assignments to writer fields. *)
Lemma writer_step_set_prevTimeWrite (w : Series) (x : Z) :
  writer_step w (set_prevTimeWrite w x).
Proof.
  unfold writer_step. repeat split. exists []. now rewrite app_nil_r.
Qed.

Lemma writer_step_set_prevTimeDeltaWrite (w : Series) (x : Z) :
  writer_step w (set_prevTimeDeltaWrite w x).
Proof.
  unfold writer_step. repeat split. exists []. now rewrite app_nil_r.
Qed.

Lemma writer_step_set_prevValueWrite (w : Series) (x : Z) :
  writer_step w (set_prevValueWrite w x).
Proof.
  unfold writer_step. repeat split. exists []. now rewrite app_nil_r.
Qed.

Lemma writer_step_set_prevLeadingWrite (w : Series) (x : Z) :
  writer_step w (set_prevLeadingWrite w x).
Proof.
  unfold writer_step. repeat split. exists []. now rewrite app_nil_r.
Qed.

Lemma writer_step_set_prevTrailingWrite (w : Series) (x : Z) :
  writer_step w (set_prevTrailingWrite w x).
Proof.
  unfold writer_step. repeat split. exists []. now rewrite app_nil_r.
Qed.

(** Chains of writes and assignments. *)
Ltac wstep :=
  repeat first
    [ apply writer_step_refl
    | apply writer_step_addValue
    | apply writer_step_set_prevTimeWrite
    | apply writer_step_set_prevTimeDeltaWrite
    | apply writer_step_set_prevValueWrite
    | apply writer_step_set_prevLeadingWrite
    | apply writer_step_set_prevTrailingWrite
    | eapply writer_step_trans; [|apply writer_step_addValue]
    | eapply writer_step_trans; [|apply writer_step_set_prevTimeWrite]
    | eapply writer_step_trans; [|apply writer_step_set_prevTimeDeltaWrite]
    | eapply writer_step_trans; [|apply writer_step_set_prevValueWrite]
    | eapply writer_step_trans; [|apply writer_step_set_prevLeadingWrite]
    | eapply writer_step_trans; [|apply writer_step_set_prevTrailingWrite] ].

Lemma writer_step_appendTimestamp (w : Series) (t : Z) :
  writer_step w (appendTimestamp w t).
Proof.
  unfold appendTimestamp.
  destruct (StreamLen (Bs w) =? 0); [wstep|].
  destruct (_ =? 0); [wstep|].
  eapply writer_step_trans; [|apply writer_step_set_prevTimeDeltaWrite].
  eapply writer_step_trans; [|apply writer_step_set_prevTimeWrite].
  rewrite appendTimestamp_loop_cases.
  destruct (_ <? _); wstep.
Qed.

Lemma writer_step_appendValue (w : Series) (v : Z) :
  writer_step w (appendValue w v).
Proof.
  unfold appendValue.
  destruct (_ =? 0); [wstep|].
  destruct (_ && _); wstep.
Qed.

Lemma writer_step_Append (w : Series) (t v : Z) :
  writer_step w (Append w t v).
Proof.
  unfold Append. eapply writer_step_trans;
    [apply writer_step_appendTimestamp | apply writer_step_appendValue].
Qed.

Lemma writer_step_AppendAll (l : list (Z * Z)) (w : Series) :
  writer_step w (AppendAll w l).
Proof.
  revert w. induction l as [|p l IH]; intros w.
  - apply writer_step_refl.
  - cbn [AppendAll fold_left]. eapply writer_step_trans;
      [apply writer_step_Append | apply IH].
Qed.

(** What was written is what the stream gained. *)
Lemma writer_step_written (w w' : Series) :
  writer_step w w' -> Bits (Bs w') = Bits (Bs w) ++ written w w'.
Proof.
  intros ([l Hl] & _). unfold written. rewrite Hl.
  rewrite skipn_app, skipn_all, Nat.sub_diag. reflexivity.
Qed.

Lemma written_trans (a b c : Series) :
  writer_step a b -> writer_step b c ->
  written a c = written a b ++ written b c.
Proof.
  intros Hab Hbc.
  pose proof (writer_step_written _ _ Hab) as H1.
  pose proof (writer_step_written _ _ Hbc) as H2.
  pose proof (writer_step_written _ _ (writer_step_trans _ _ _ Hab Hbc)) as H3.
  rewrite H2, H1, <- app_assoc in H3.
  now apply app_inv_head in H3.
Qed.

End WriterOnly.

(** ** One sample, written then read *)

Section Step.

Lemma wrap64_congr (x y k : Z) : x = y + k * 2 ^ 64 -> wrap64 x = wrap64 y.
Proof. intros ->. unfold wrap64. now rewrite Z.mod_add by lia. Qed.

(** The reader's delta after adding the decoded delta of delta. *)
Lemma delta_recovered (pd delta : Z) :
  - 2 ^ 63 <= delta < 2 ^ 63 ->
  int64 (pd + int64 (delta - pd)) = delta.
Proof.
  intros Hd. destruct (int64_eqm (delta - pd)) as [k Hk].
  rewrite (int64_congr _ delta k) by lia. now apply int64_small.
Qed.

(** The reader's time after adding the delta. *)
Lemma time_recovered (pt t d : Z) (k : Z) :
  0 <= t < 2 ^ 64 ->
  d = t - pt + k * 2 ^ 64 ->
  wrap64 (pt + wrap64 d) = t.
Proof.
  intros Ht Hd. destruct (wrap64_eqm d) as [k' Hk'].
  rewrite (wrap64_congr _ t (k + k')) by lia. now apply wrap64_small.
Qed.

Lemma synced_at_frame (w r : Series) (rest : list bool) :
  synced w r rest -> at_frame r rest.
Proof.
  intros [Hb Hp _ _ _ _ _]. unfold at_frame, unread, NumBits in *.
  rewrite Hp, Hb, Nat2Z.id, length_app.
  rewrite skipn_app, skipn_all, Nat.sub_diag. cbn [skipn app]. split; [lia|].
  reflexivity.
Qed.

(** A timestamp the format can carry is read back, and reader and writer
    stay in step. *)
Lemma timestamp_step (w r : Series) (t : Z) (rest : list bool) :
  ts_ok w t ->
  synced w r (ts_bits w t ++ rest) ->
  exists r',
    readNextTimestamp r = ((t, None), r')
    /\ synced (appendTimestamp w t) r' rest.
Proof.
  intros Hok Hs. pose proof (synced_at_frame _ _ _ Hs) as Hfr.
  destruct Hs as [Hb Hp Ht Hd Hv Hl Htr].
  unfold ts_ok in Hok. unfold ts_bits in *.
  destruct (Z.eqb_spec (StreamLen (Bs w)) 0) as [Hlen | Hlen].
  - (* the first timestamp *)
    pose proof (proj1 (StreamLen_zero _) Hlen) as Hnil.
    rewrite (appendTimestamp_first w t Hlen) in *.
    cbn [set_prevTimeDeltaWrite set_prevTimeWrite Bs] in Hfr, Hb.
    change (written w _) with (written w (wrote w (bits_of 32 t))) in Hfr, Hb.
    rewrite written_wrote in Hfr, Hb.
    assert (Hpos : BitPos (Bs r) = 0).
    { rewrite Hp. unfold NumBits. now rewrite Hnil. }
    destruct (readNextTimestamp_first r t rest Hpos Hfr) as [Hread Hfr'].
    rewrite Z.mod_small in Hread by lia.
    eexists. split; [exact Hread|].
    constructor; fields; try assumption; try reflexivity.
    + rewrite Hb. now rewrite app_assoc.
    + rewrite Hpos. unfold NumBits. fields. rewrite Hnil. reflexivity.
  - destruct Hok as [Htr64 Habs].
    assert (Hposne : BitPos (Bs r) <> 0).
    { rewrite Hp. intros E. apply Hlen. apply StreamLen_zero.
      unfold NumBits in E. destruct (Bits (Bs w)); [reflexivity|].
      cbn in E. lia. }
    destruct (Z.eq_dec (ts_dd w t) 0) as [Hdd | Hdd].
    + (* delta of delta zero *)
      rewrite (appendTimestamp_same w t Hlen Hdd) in *.
      change (written w _) with (written w (wrote w [false])) in Hfr, Hb.
      rewrite written_wrote in Hfr, Hb.
      destruct (readNextTimestamp_same r _ Hposne Hfr) as [Hread Hfr'].
      assert (Htime : wrap64 (prevTimeRead r + wrap64 (prevTimeDeltaRead r))
                      = t).
      { rewrite Ht, Hd. unfold ts_dd, ts_delta in Hdd.
        destruct (int64_eqm (int64 (t - prevTimeWrite w)
                             - prevTimeDeltaWrite w)) as [k1 Hk1].
        destruct (int64_eqm (t - prevTimeWrite w)) as [k2 Hk2].
        apply (time_recovered _ _ _ (k1 + k2)); lia. }
      cbv zeta in Hread. cbn [prevTimeRead set_prevTimeRead] in Hread.
      rewrite Htime in Hread.
      eexists. split; [exact Hread|].
      constructor; fields; try assumption; try reflexivity.
      * rewrite Hb. now rewrite app_assoc.
      * rewrite Hp. unfold NumBits. fields.
        rewrite length_app, Nat2Z.inj_add.
        reflexivity.
    + (* a frame *)
      rewrite (appendTimestamp_frame w t Hlen Hdd Habs) in *.
      change (written w _)
        with (written w (wrote w (ts_frame (ts_dd w t)))) in Hfr, Hb.
      rewrite written_wrote in Hfr, Hb.
      destruct (readNextTimestamp_frame r _ rest Hposne Hdd Habs Hfr)
        as [Hread Hfr'].
      cbv zeta in Hread.
      assert (Hdelta : int64 (prevTimeDeltaRead r + ts_dd w t) = ts_delta w t).
      { rewrite Hd. unfold ts_dd. apply delta_recovered.
        unfold ts_delta. apply int64_range. }
      assert (Htime : wrap64 (prevTimeRead r + wrap64 (ts_delta w t)) = t).
      { rewrite Ht. unfold ts_delta.
        destruct (int64_eqm (t - prevTimeWrite w)) as [k Hk].
        apply (time_recovered _ _ _ k); lia. }
      unfold after_ts_frame in Hread.
      cbn [prevTimeRead prevTimeDeltaRead set_prevTimeRead
           set_prevTimeDeltaRead advance set_Bs] in Hread.
      rewrite Hdelta, Htime in Hread.
      eexists. split; [exact Hread|].
      constructor; fields; try assumption; try reflexivity.
      * rewrite Hb. now rewrite app_assoc.
      * rewrite Hp. unfold NumBits. fields.
        rewrite length_app, Nat2Z.inj_add.
        reflexivity.
Qed.

(** [appendTimestamp] leaves the value fields of the writer alone. *)
Lemma appendTimestamp_writer_wf (w : Series) (t : Z) :
  writer_wf w -> writer_wf (appendTimestamp w t).
Proof.
  intros H. unfold appendTimestamp.
  destruct (StreamLen (Bs w) =? 0); [exact H|].
  destruct (_ =? 0); [exact H|].
  rewrite appendTimestamp_loop_cases.
  destruct (_ <? _); exact H.
Qed.

(** A value is read back, and reader and writer stay in step. *)
Lemma value_step (w r : Series) (v : Z) (rest : list bool) :
  writer_wf w ->
  0 <= v < 2 ^ 64 ->
  synced w r (value_bits w v ++ rest) ->
  exists r',
    readNextValue r = ((v, None), r')
    /\ synced (appendValue w v) r' rest
    /\ writer_wf (appendValue w v).
Proof.
  intros Hwf Hv Hs. pose proof (synced_at_frame _ _ _ Hs) as Hfr.
  destruct Hs as [Hb Hp Ht Hd Hpv Hl Htr].
  unfold value_bits in *.
  destruct (Z.eq_dec (Z.lxor v (prevValueWrite w)) 0) as [Hx | Hx].
  - (* the value did not change *)
    rewrite (appendValue_same w v Hx) in *.
    rewrite written_wrote in Hfr, Hb.
    destruct (readNextValue_same r rest Hfr) as [Hread Hfr'].
    apply Z.lxor_eq in Hx. rewrite Hpv, <- Hx in Hread.
    eexists. split; [exact Hread|]. split; [|exact Hwf].
    constructor; fields; try assumption; try reflexivity.
    + rewrite Hb. now rewrite app_assoc.
    + rewrite Hp. unfold NumBits. fields.
      rewrite length_app, Nat2Z.inj_add. reflexivity.
  - pose proof (appendValue_changed w v Hwf Hv Hx) as Happ. cbv zeta in Happ.
    destruct Hwf as (Hpvr & Hplr & Hptr & Hsum).
    set (x := Z.lxor v (prevValueWrite w)) in *.
    assert (Hxr : 0 < x < 2 ^ 64).
    { pose proof (lxor_range v (prevValueWrite w) Hv Hpvr). subst x. lia. }
    pose proof (leading_of_spec x Hxr) as (Hlr & Hlc & Hlt).
    pose proof (Ctz_spec x (proj1 Hxr)) as (Hct & Hlow & _).
    pose proof (Clz_Ctz_sum x Hxr) as Hcs.
    assert (Hback : Z.lxor x (prevValueRead r) = v).
    { rewrite Hpv. subst x. apply lxor_cancel. }
    destruct (reuse_cond w x) eqn:Hc.
    + (* the previous block is used again *)
      rewrite Happ in *.
      change (written w _) with (written w (wrote w (reuse_frame w x)))
        in Hfr, Hb.
      rewrite written_wrote in Hfr, Hb.
      unfold reuse_cond in Hc.
      apply andb_prop in Hc. destruct Hc as [Hc _].
      apply andb_prop in Hc. destruct Hc as [Hc1 Hc2].
      apply Z.leb_le in Hc1, Hc2.
      unfold reuse_frame, prev_block_width in Hfr.
      assert (Hxl : 0 <= x < 2 ^ (64 - prevLeadingRead r)).
      { rewrite Hl. split; [lia|]. eapply Z.lt_le_trans; [exact Hlt|].
        apply Z.pow_le_mono_r; lia. }
      assert (Hxt : x mod 2 ^ prevTrailingRead r = 0).
      { rewrite Htr. apply (low_bits_zero_le x (Ctz x)); [lia | exact Hlow]. }
      rewrite <- app_assoc in Hfr.
      destruct (readNextValue_reuse r x rest) as [Hread Hfr'];
        rewrite ?Hl, ?Htr in *; try assumption; try lia.
      rewrite Hback in Hread.
      eexists. split; [exact Hread|]. split.
      * constructor; fields; try assumption; try reflexivity.
        -- rewrite Hb. now rewrite app_assoc.
        -- rewrite Hp. unfold NumBits. fields.
           rewrite length_app, Nat2Z.inj_add. f_equal.
           unfold reuse_frame, prev_block_width.
           rewrite length_app, bits_of_length. cbn [length].
           rewrite Nat2Z.inj_add, Z2Nat.id by lia. reflexivity.
      * unfold writer_wf. fields. lia.
    + (* a block of its own *)
      rewrite Happ in *.
      change (written w _) with (written w (wrote w (fresh_frame x)))
        in Hfr, Hb.
      rewrite written_wrote in Hfr, Hb.
      destruct (readNextValue_fresh r x rest Hxr Hfr) as [Hread Hfr'].
      rewrite Hback in Hread.
      eexists. split; [exact Hread|]. split.
      * constructor; fields; try assumption; try reflexivity.
        -- rewrite Hb. now rewrite app_assoc.
        -- rewrite Hp. unfold NumBits. fields.
           rewrite length_app, Nat2Z.inj_add. f_equal.
           unfold fresh_frame. rewrite !length_app, !bits_of_length.
           cbn [length]. pose proof (block_size_range x Hxr). lia.
      * unfold writer_wf. fields. lia.
Qed.

(** One sample the format can carry is read back by [Read]. *)
Lemma Read_after_Append (w r : Series) (t v : Z) (rest : list bool) :
  writer_wf w ->
  ts_ok w t ->
  0 <= v < 2 ^ 64 ->
  synced w r (sample_bits w t v ++ rest) ->
  exists r',
    Read r = ((t, v, None), r')
    /\ synced (Append w t v) r' rest
    /\ writer_wf (Append w t v).
Proof.
  intros Hwf Hok Hv Hs.
  assert (Hsplit : sample_bits w t v
                   = ts_bits w t ++ value_bits (appendTimestamp w t) v).
  { apply written_trans;
      [apply writer_step_appendTimestamp | apply writer_step_appendValue]. }
  rewrite Hsplit, <- app_assoc in Hs.
  destruct (timestamp_step w r t _ Hok Hs) as (r1 & Hr1 & Hs1).
  destruct (value_step _ r1 v rest (appendTimestamp_writer_wf w t Hwf) Hv Hs1)
    as (r2 & Hr2 & Hs2 & Hwf2).
  exists r2. unfold Read. rewrite Hr1, Hr2. auto.
Qed.

(** Samples the format can carry are read back in order. *)
Lemma ReadN_AppendAll (l : list (Z * Z)) (w r : Series) (rest : list bool) :
  writer_wf w ->
  samples_ok w l ->
  synced w r (written w (AppendAll w l) ++ rest) ->
  exists r',
    ReadN (length l) r = (results l, r')
    /\ synced (AppendAll w l) r' rest.
Proof.
  revert w r. induction l as [|[t v] l IH]; intros w r Hwf Hok Hs.
  - exists r. split; [reflexivity|].
    cbn [AppendAll fold_left] in *. unfold written in Hs.
    rewrite skipn_all in Hs. exact Hs.
  - cbn [samples_ok fst snd] in Hok. destruct Hok as (Hts & Hv & Hok).
    cbn [AppendAll fold_left fst snd] in *.
    change (fold_left _ l (Append w t v)) with (AppendAll (Append w t v) l)
      in *.
    rewrite (written_trans w (Append w t v)) in Hs
      by (apply writer_step_Append || apply writer_step_AppendAll).
    rewrite <- app_assoc in Hs.
    destruct (Read_after_Append w r t v _ Hwf Hts Hv Hs)
      as (r1 & Hr1 & Hs1 & Hwf1).
    destruct (IH _ r1 Hwf1 Hok Hs1) as (r2 & Hr2 & Hs2).
    exists r2. split; [|exact Hs2].
    cbn [length ReadN]. rewrite Hr1, Hr2. reflexivity.
Qed.

End Step.

(** ** Field effects of the value writer *)

Section ValueWriter.

Lemma appendValue_prevValueWrite (s : Series) (v : Z) :
  prevValueWrite (appendValue s v) = v.
Proof.
  unfold appendValue.
  destruct (Z.eqb_spec (Z.lxor v (prevValueWrite s)) 0) as [E | _].
  - apply Z.lxor_eq in E. fields. congruence.
  - cbv zeta. destruct (_ && _); reflexivity.
Qed.

Lemma appendValue_time_fields (s : Series) (v : Z) :
  prevTimeWrite (appendValue s v) = prevTimeWrite s
  /\ prevTimeDeltaWrite (appendValue s v) = prevTimeDeltaWrite s.
Proof.
  unfold appendValue. destruct (_ =? 0); [split; reflexivity|].
  cbv zeta. destruct (_ && _); split; reflexivity.
Qed.

(** The frame of a value depends on the value fields of the writer only. *)
Lemma value_bits_indep (s1 s2 : Series) (v : Z) :
  prevValueWrite s1 = prevValueWrite s2 ->
  prevLeadingWrite s1 = prevLeadingWrite s2 ->
  prevTrailingWrite s1 = prevTrailingWrite s2 ->
  value_bits s1 v = value_bits s2 v.
Proof.
  intros Hv Hl Ht. unfold value_bits, appendValue. fields.
  rewrite Hv, Hl, Ht.
  destruct (_ =? 0); [unfold written; fields; now rewrite !skipn_app,
    !skipn_all, !Nat.sub_diag|].
  destruct (_ && _); unfold written; fields;
    rewrite <- !app_assoc, !skipn_app, !skipn_all, !Nat.sub_diag;
    cbn [skipn app]; rewrite ?Ht; reflexivity.
Qed.

(** Appending keeps the stream non-empty. *)
Lemma writer_step_nonempty (w w' : Series) :
  writer_step w w' -> StreamLen (Bs w) <> 0 -> StreamLen (Bs w') <> 0.
Proof.
  intros ([l Hl] & _) H E. apply H. apply StreamLen_zero.
  apply StreamLen_zero in E. rewrite Hl in E.
  now apply app_eq_nil in E.
Qed.

Lemma NumBits_written (w w' : Series) :
  writer_step w w' ->
  NumBits (Bs w') = NumBits (Bs w) + Z.of_nat (length (written w w')).
Proof.
  intros H. unfold NumBits. rewrite (writer_step_written _ _ H) at 1.
  now rewrite length_app, Nat2Z.inj_add.
Qed.

End ValueWriter.

(** ** The constant stream *)

Section ConstantStream.

Variables t0 c : Z.

(** Every sample after the first costs two bits. *)
Lemma const_from_size (n : nat) (i : Z) (w : Series) :
  StreamLen (Bs w) <> 0 ->
  prevTimeWrite w = wrap64 (t0 + 60 * (i - 1)) ->
  prevTimeDeltaWrite w = 60 ->
  prevValueWrite w = c ->
  NumBits (Bs (AppendAll w (const_from t0 c i n)))
  = NumBits (Bs w) + 2 * Z.of_nat n.
Proof.
  revert i w. induction n as [|n IH]; intros i w Hlen Ht Hd Hv.
  - cbn [const_from AppendAll fold_left]. lia.
  - cbn [const_from AppendAll fold_left fst snd].
    change (fold_left _ ?l ?s) with (AppendAll s l).
    set (t := wrap64 (t0 + 60 * i)).
    assert (Hdelta : ts_delta w t = 60).
    { unfold ts_delta. rewrite Ht. subst t.
      destruct (wrap64_eqm (t0 + 60 * i)) as [k1 Hk1].
      destruct (wrap64_eqm (t0 + 60 * (i - 1))) as [k2 Hk2].
      rewrite (int64_congr _ 60 (k1 - k2)) by lia.
      apply int64_small. lia. }
    assert (Hdd : ts_dd w t = 0).
    { unfold ts_dd. rewrite Hdelta, Hd. reflexivity. }
    unfold Append. rewrite (appendTimestamp_same w t Hlen Hdd).
    rewrite appendValue_same
      by (fields; rewrite Hv; apply Z.lxor_nilpotent).
    rewrite wrote_wrote. rewrite (IH (i + 1)).
    + unfold NumBits. fields. rewrite length_app, Nat2Z.inj_add.
      cbn [length app]. lia.
    + intros E. apply StreamLen_zero in E. fields.
      cbn [Bits Bs wrote set_Bs] in E. now apply app_eq_nil in E.
    + fields. subst t. f_equal. ring.
    + exact Hd.
    + exact Hv.
Qed.

End ConstantStream.

(** C7.  For the constant stream of [N >= 1] samples with timestamps
    [t_i = t0 + 60 * i] and one value [c], the bitstream holds exactly
    [32 + first_value_frame c + (N - 1) * 2] bits after all appends: 32 bits
    for the first timestamp, the frame of the first value, and for every
    later sample one [0] bit for its timestamp and one [0] bit for its
    value. *)
Theorem constant_stream_size (t0 c : Z) (N : nat) :
  (1 <= N)%nat ->
  NumBits (Bs (AppendAll newSeries (const_stream t0 c N)))
  = 32 + first_value_frame c + (Z.of_nat N - 1) * 2.
Proof.
  intros HN. destruct N as [|n]; [lia|].
  unfold const_stream. cbn [const_from AppendAll fold_left fst snd].
  change (fold_left _ ?l ?s) with (AppendAll s l).
  set (t := wrap64 (t0 + 60 * 0)).
  pose (w1 := appendTimestamp newSeries t).
  assert (Hw1 : w1 = set_prevTimeDeltaWrite
                       (set_prevTimeWrite (wrote newSeries (bits_of 32 t)) t)
                       DEFAULT_DELTA) by reflexivity.
  assert (Hfirst : NumBits (Bs (Append newSeries t c))
                   = 32 + first_value_frame c).
  { unfold Append. fold w1.
    rewrite (NumBits_written w1) by apply writer_step_appendValue.
    unfold first_value_frame. fold (value_bits w1 c).
    rewrite (value_bits_indep w1 newSeries) by (rewrite Hw1; reflexivity).
    rewrite Hw1. reflexivity. }
  destruct (appendValue_time_fields w1 c) as [Ht Hd].
  rewrite (const_from_size t0 c n (0 + 1)).
  - rewrite Hfirst. lia.
  - apply (writer_step_nonempty w1); [apply writer_step_appendValue|].
    rewrite Hw1. intros E. apply StreamLen_zero in E. discriminate E.
  - unfold Append. fold w1. rewrite Ht, Hw1. reflexivity.
  - unfold Append. fold w1. rewrite Hd, Hw1. reflexivity.
  - unfold Append. apply appendValue_prevValueWrite.
Qed.

Lemma constant_stream_size_witness :
  NumBits (Bs (AppendAll newSeries
                 (const_stream 1440583200 (float64_of_pos 700) 10)))
  = 32 + first_value_frame (float64_of_pos 700) + (Z.of_nat 10 - 1) * 2.
Proof. apply (constant_stream_size 1440583200 (float64_of_pos 700) 10). lia. Defined.

(** ** Timestamp frames, claim by claim *)

(** C6.  When a timestamp that is not the first is appended and its delta of
    delta is zero, the encoder writes exactly one [0] bit and records the new
    timestamp in [prevTimeWrite]; [prevTimeDeltaWrite] and the writer state
    of the value codec ([prevValueWrite], [prevLeadingWrite],
    [prevTrailingWrite]) are as before the timestamp step. *)
Theorem zero_dd_appends_one_bit (s : Series) (timestamp : Z) :
  StreamLen (Bs s) <> 0 ->
  ts_dd s timestamp = 0 ->
  let s' := appendTimestamp s timestamp in
  Bits (Bs s') = Bits (Bs s) ++ [false]
  /\ ts_bits s timestamp = [false]
  /\ prevTimeWrite s' = timestamp
  /\ prevTimeDeltaWrite s' = prevTimeDeltaWrite s
  /\ prevValueWrite s' = prevValueWrite s
  /\ prevLeadingWrite s' = prevLeadingWrite s
  /\ prevTrailingWrite s' = prevTrailingWrite s.
Proof.
  intros Hlen Hdd s'. subst s'. unfold ts_bits.
  rewrite (appendTimestamp_same s timestamp Hlen Hdd).
  change (written s _) with (written s (wrote s [false])).
  rewrite written_wrote. repeat split.
Qed.

Lemma zero_dd_appends_one_bit_witness :
  let s := Append newSeries 1440583200 (float64_of_pos 761) in
  let s' := appendTimestamp s 1440583260 in
  Bits (Bs s') = Bits (Bs s) ++ [false]
  /\ ts_bits s 1440583260 = [false]
  /\ prevTimeWrite s' = 1440583260
  /\ prevTimeDeltaWrite s' = prevTimeDeltaWrite s
  /\ prevValueWrite s' = prevValueWrite s
  /\ prevLeadingWrite s' = prevLeadingWrite s
  /\ prevTrailingWrite s' = prevTrailingWrite s.
Proof.
  apply (zero_dd_appends_one_bit
           (Append newSeries 1440583200 (float64_of_pos 761)) 1440583260).
  - vm_compute. discriminate.
  - vm_compute. reflexivity.
Defined.

(** C4.  For two consecutive appends whose delta of delta [dd] is not zero
    and whose adjusted value ([dd - 1] when [dd > 0], [dd] otherwise) is
    below [2^31] in magnitude, a reader that is in step with the writer
    before the second append decodes the frame back to [dd]: it leaves
    [prevTimeDeltaRead + dd] in [prevTimeDeltaRead] (the state
    [after_ts_frame] of the frame's length), which is the writer's new delta,
    and returns the timestamp that was appended. *)
Theorem timestamp_frame_decodes (w r : Series) (timestamp : Z)
    (rest : list bool) :
  StreamLen (Bs w) <> 0 ->
  0 <= timestamp < 2 ^ 64 ->
  ts_dd w timestamp <> 0 ->
  Z.abs (adj_dd (ts_dd w timestamp)) < 2 ^ 31 ->
  Bits (Bs r) = Bits (Bs (appendTimestamp w timestamp)) ++ rest ->
  BitPos (Bs r) = NumBits (Bs w) ->
  prevTimeRead r = prevTimeWrite w ->
  prevTimeDeltaRead r = prevTimeDeltaWrite w ->
  let dd := ts_dd w timestamp in
  let r' := after_ts_frame r dd (Z.of_nat (length (ts_bits w timestamp))) in
  readNextTimestamp r = ((timestamp, None), r')
  /\ prevTimeDeltaRead r' = int64 (prevTimeDeltaRead r + dd)
  /\ prevTimeDeltaRead r' = prevTimeDeltaWrite (appendTimestamp w timestamp)
  /\ prevTimeRead r' = prevTimeWrite (appendTimestamp w timestamp)
  /\ BitPos (Bs r') = NumBits (Bs (appendTimestamp w timestamp)).
Proof.
  intros Hlen Ht Hdd Habs Hb Hp Hpt Hpd dd r'.
  assert (Hts : ts_bits w timestamp = ts_frame dd).
  { unfold ts_bits. rewrite (appendTimestamp_frame w _ Hlen Hdd Habs).
    change (written w _) with (written w (wrote w (ts_frame dd))).
    apply written_wrote. }
  assert (Hfr : at_frame r (ts_frame dd ++ rest)).
  { rewrite (appendTimestamp_frame w _ Hlen Hdd Habs) in Hb.
    fields_in Hb. fold dd in Hb. rewrite <- app_assoc in Hb.
    unfold at_frame, unread, NumBits in *. rewrite Hp, Hb, Nat2Z.id.
    rewrite length_app, skipn_app, skipn_all, Nat.sub_diag.
    split; [lia | reflexivity]. }
  assert (Hposne : BitPos (Bs r) <> 0).
  { rewrite Hp. intros E. apply Hlen. apply StreamLen_zero.
    unfold NumBits in E. destruct (Bits (Bs w)); [reflexivity|].
    cbn [length] in E. lia. }
  destruct (readNextTimestamp_frame r dd rest Hposne Hdd Habs Hfr)
    as [Hread _].
  cbv zeta in Hread. subst r'. rewrite Hts.
  assert (Hdelta : int64 (prevTimeDeltaRead r + dd) = ts_delta w timestamp).
  { rewrite Hpd. subst dd. unfold ts_dd. apply delta_recovered.
    unfold ts_delta. apply int64_range. }
  assert (Htime : wrap64 (prevTimeRead r + wrap64 (ts_delta w timestamp))
                  = timestamp).
  { rewrite Hpt. unfold ts_delta.
    destruct (int64_eqm (timestamp - prevTimeWrite w)) as [k Hk].
    apply (time_recovered _ _ _ k); lia. }
  assert (Htime' : prevTimeRead
                     (after_ts_frame r dd (Z.of_nat (length (ts_frame dd))))
                   = timestamp).
  { unfold after_ts_frame. fields. rewrite Hdelta. exact Htime. }
  rewrite Htime' in Hread. split; [exact Hread|].
  rewrite (appendTimestamp_frame w _ Hlen Hdd Habs).
  unfold after_ts_frame. fields. fold dd. rewrite Hdelta, Htime.
  repeat split.
  rewrite Hp. unfold NumBits. fields. now rewrite length_app, Nat2Z.inj_add.
Qed.

Lemma timestamp_frame_decodes_witness :
  let w := Append newSeries 1440583200 (float64_of_pos 761) in
  let r := snd (Read (appendTimestamp w 1440583261)) in
  let dd := ts_dd w 1440583261 in
  let r' := after_ts_frame r dd (Z.of_nat (length (ts_bits w 1440583261))) in
  readNextTimestamp r = ((1440583261, None), r')
  /\ prevTimeDeltaRead r' = int64 (prevTimeDeltaRead r + dd)
  /\ prevTimeDeltaRead r' = prevTimeDeltaWrite (appendTimestamp w 1440583261)
  /\ prevTimeRead r' = prevTimeWrite (appendTimestamp w 1440583261)
  /\ BitPos (Bs r') = NumBits (Bs (appendTimestamp w 1440583261)).
Proof.
  apply (timestamp_frame_decodes
           (Append newSeries 1440583200 (float64_of_pos 761))
           (snd (Read (appendTimestamp
                         (Append newSeries 1440583200 (float64_of_pos 761))
                         1440583261)))
           1440583261 []).
  - vm_compute. discriminate.
  - lia.
  - vm_compute. discriminate.
  - vm_compute. reflexivity.
  - vm_compute. reflexivity.
  - vm_compute. reflexivity.
  - vm_compute. reflexivity.
  - vm_compute. reflexivity.
Defined.

(** ** Value frames, claim by claim *)

(** C5.  On a value append with a non-zero XOR [x], the encoder writes the
    frame that uses the previous block (control bits [1], [1]) if and only
    if [leading >= prevLeadingWrite], [trailing >= prevTrailingWrite] and
    [prev_block_width < 5 + 6 + block_size]; the payload then has exactly
    [prev_block_width = 64 - prevLeadingWrite - prevTrailingWrite] bits and
    denotes [x >> prevTrailingWrite], and [prevLeading] and [prevTrailing]
    are unchanged for the writer and, after the matching read, which returns
    the value, for a reader in step with it. *)
Theorem reuse_frame_chosen_iff (w r : Series) (value : Z) (rest : list bool) :
  writer_wf w ->
  0 <= value < 2 ^ 64 ->
  Z.lxor value (prevValueWrite w) <> 0 ->
  synced w r (value_bits w value ++ rest) ->
  let x := Z.lxor value (prevValueWrite w) in
  ((exists payload, value_bits w value = true :: true :: payload)
   <-> (prevLeadingWrite w <= leading_of x
        /\ prevTrailingWrite w <= Ctz x
        /\ prev_block_width w < 5 + 6 + block_size x))
  /\ ((exists payload, value_bits w value = true :: true :: payload) ->
      exists payload r',
        value_bits w value = true :: true :: payload
        /\ Z.of_nat (length payload) = prev_block_width w
        /\ val_of payload = Z.shiftr x (prevTrailingWrite w)
        /\ prevLeadingWrite (appendValue w value) = prevLeadingWrite w
        /\ prevTrailingWrite (appendValue w value) = prevTrailingWrite w
        /\ readNextValue r = ((value, None), r')
        /\ prevLeadingRead r' = prevLeadingRead r
        /\ prevTrailingRead r' = prevTrailingRead r).
Proof.
  intros Hwf Hv Hx Hs x.
  pose proof (appendValue_changed w value Hwf Hv Hx) as Happ.
  cbv zeta in Happ. fold x in Happ.
  destruct (value_step w r value rest Hwf Hv Hs) as (r' & Hread & Hs' & _).
  destruct Hwf as (Hpvr & Hplr & Hptr & Hsum).
  assert (Hxr : 0 < x < 2 ^ 64).
  { pose proof (lxor_range value (prevValueWrite w) Hv Hpvr). subst x. lia. }
  pose proof (leading_of_spec x Hxr) as (Hlr & Hlc & Hlt).
  pose proof (Ctz_spec x (proj1 Hxr)) as (Hct & Hlow & _).
  assert (Hcond : reuse_cond w x = true
                  <-> prevLeadingWrite w <= leading_of x
                      /\ prevTrailingWrite w <= Ctz x
                      /\ prev_block_width w < 5 + 6 + block_size x).
  { unfold reuse_cond. rewrite !andb_true_iff, !Z.leb_le, Z.ltb_lt.
    tauto. }
  destruct (reuse_cond w x) eqn:Hc.
  - (* the previous block is used again *)
    assert (Hbits : value_bits w value = reuse_frame w x).
    { unfold value_bits. rewrite Happ.
      change (written w _) with (written w (wrote w (reuse_frame w x))).
      apply written_wrote. }
    assert (Hex : exists payload,
               value_bits w value = true :: true :: payload).
    { rewrite Hbits. unfold reuse_frame. eexists. reflexivity. }
    split; [split; [intros _; apply Hcond; reflexivity | intros _; exact Hex]|].
    intros _.
    exists (bits_of (Z.to_nat (prev_block_width w))
              (Z.shiftr x (prevTrailingWrite w))), r'.
    assert (Hw : 0 <= prev_block_width w) by (unfold prev_block_width; lia).
    repeat split.
    + exact Hbits.
    + rewrite bits_of_length. apply Z2Nat.id. exact Hw.
    + apply val_of_bits_of_small. rewrite Z2Nat.id by exact Hw.
      apply shiftr_fits; try lia.
      replace (prev_block_width w + prevTrailingWrite w)
        with (64 - prevLeadingWrite w) by (unfold prev_block_width; ring).
      destruct (proj1 Hcond eq_refl) as (Hc1 & _).
      split; [lia|]. eapply Z.lt_le_trans; [exact Hlt|].
      apply Z.pow_le_mono_r; lia.
    + rewrite Happ. reflexivity.
    + rewrite Happ. reflexivity.
    + exact Hread.
    + rewrite (sync_leading _ _ _ Hs'), (sync_leading _ _ _ Hs), Happ.
      reflexivity.
    + rewrite (sync_trailing _ _ _ Hs'), (sync_trailing _ _ _ Hs), Happ.
      reflexivity.
  - (* a block of its own: the second control bit is 0 *)
    assert (Hbits : value_bits w value = fresh_frame x).
    { unfold value_bits. rewrite Happ.
      change (written w _) with (written w (wrote w (fresh_frame x))).
      apply written_wrote. }
    assert (Hno : ~ exists payload,
               value_bits w value = true :: true :: payload).
    { rewrite Hbits. unfold fresh_frame. intros [p Hp]. discriminate Hp. }
    split; [split; [intros H; contradiction|]|intros H; contradiction].
    intros H. apply Hcond in H. discriminate H.
Qed.

Lemma reuse_frame_chosen_iff_witness :
  let w := appendTimestamp (Append newSeries 0 (float64_of_pos 1)) 60 in
  let value := 0x3FE0000000000000 in
  let r := snd (readNextTimestamp (snd (Read (appendValue w value)))) in
  let x := Z.lxor value (prevValueWrite w) in
  ((exists payload, value_bits w value = true :: true :: payload)
   <-> (prevLeadingWrite w <= leading_of x
        /\ prevTrailingWrite w <= Ctz x
        /\ prev_block_width w < 5 + 6 + block_size x))
  /\ ((exists payload, value_bits w value = true :: true :: payload) ->
      exists payload r',
        value_bits w value = true :: true :: payload
        /\ Z.of_nat (length payload) = prev_block_width w
        /\ val_of payload = Z.shiftr x (prevTrailingWrite w)
        /\ prevLeadingWrite (appendValue w value) = prevLeadingWrite w
        /\ prevTrailingWrite (appendValue w value) = prevTrailingWrite w
        /\ readNextValue r = ((value, None), r')
        /\ prevLeadingRead r' = prevLeadingRead r
        /\ prevTrailingRead r' = prevTrailingRead r).
Proof.
  apply (reuse_frame_chosen_iff
           (appendTimestamp (Append newSeries 0 (float64_of_pos 1)) 60)
           (snd (readNextTimestamp
                   (snd (Read (appendValue
                                 (appendTimestamp
                                    (Append newSeries 0 (float64_of_pos 1)) 60)
                                 0x3FE0000000000000)))))
           0x3FE0000000000000 []).
  - vm_compute. repeat split; discriminate.
  - lia.
  - vm_compute. discriminate.
  - constructor; vm_compute; reflexivity.
Defined.

Example reuse_frame_example :
  let w := appendTimestamp (Append newSeries 0 (float64_of_pos 1)) 60 in
  value_bits w 0x3FE0000000000000
  = [true; true; false; false; false; false; false; false; false; false;
     false; true].
Proof. vm_compute. reflexivity. Qed.

(** ** The first sample *)

(** C9.  On a series whose stream is empty, the timestamp of the first
    appended sample is written as the first 32 bits of the bitstream (most
    significant bit first), where later appends leave it, and the writer has
    [prevTimeDeltaWrite = 60] right after the first append; the first read
    takes those 32 bits as the absolute timestamp, moves the cursor to 32
    and sets [prevTimeDeltaRead = 60]. *)
Theorem first_timestamp_32_bits (w : Series) (timestamp value : Z)
    (l : list (Z * Z)) :
  StreamLen (Bs w) = 0 ->
  BitPos (Bs w) = 0 ->
  let s1 := Append w timestamp value in
  let s := AppendAll s1 l in
  ts_bits w timestamp = bits_of 32 timestamp
  /\ firstn 32 (Bits (Bs s)) = bits_of 32 timestamp
  /\ prevTimeDeltaWrite s1 = 60
  /\ exists r',
       readNextTimestamp s = ((timestamp mod 2 ^ 32, None), r')
       /\ val_of (firstn 32 (Bits (Bs s))) = timestamp mod 2 ^ 32
       /\ BitPos (Bs r') = 32
       /\ prevTimeRead r' = timestamp mod 2 ^ 32
       /\ prevTimeDeltaRead r' = 60.
Proof.
  intros Hlen Hpos s1 s.
  pose proof (proj1 (StreamLen_zero _) Hlen) as Hnil.
  pose proof (appendTimestamp_first w timestamp Hlen) as Hts.
  assert (Hbits : ts_bits w timestamp = bits_of 32 timestamp).
  { unfold ts_bits. rewrite Hts.
    change (written w _) with (written w (wrote w (bits_of 32 timestamp))).
    apply written_wrote. }
  assert (Hstep : writer_step (appendTimestamp w timestamp) s).
  { eapply writer_step_trans;
      [apply writer_step_appendValue | apply writer_step_AppendAll]. }
  destruct Hstep as ([tl Htl] & Hp & _).
  assert (Hall : Bits (Bs s) = bits_of 32 timestamp ++ tl).
  { rewrite Htl, Hts. fields. now rewrite Hnil. }
  assert (Hfirst : firstn 32 (Bits (Bs s)) = bits_of 32 timestamp).
  { rewrite Hall, firstn_app, bits_of_length, Nat.sub_diag, firstn_O.
    rewrite app_nil_r. apply firstn_all2. now rewrite bits_of_length. }
  assert (Hfr : at_frame s (bits_of 32 timestamp ++ tl)).
  { unfold at_frame, unread. rewrite Hp, Hts. fields. rewrite Hpos.
    cbn [Z.to_nat skipn]. split; [|exact Hall].
    unfold NumBits. lia. }
  assert (Hpos' : BitPos (Bs s) = 0).
  { rewrite Hp, Hts. fields. exact Hpos. }
  destruct (readNextTimestamp_first s timestamp tl Hpos' Hfr) as [Hread _].
  cbv zeta in Hread.
  split; [exact Hbits|]. split; [exact Hfirst|]. split.
  - subst s1. unfold Append.
    rewrite (proj2 (appendValue_time_fields _ value)), Hts. reflexivity.
  - eexists. split; [exact Hread|]. fields. rewrite Hpos'.
    rewrite Hfirst, val_of_bits_of. repeat split.
Qed.

Lemma first_timestamp_32_bits_witness :
  let s1 := Append newSeries 1440583200 (float64_of_pos 761) in
  let s := AppendAll s1 [(1440583260, float64_of_pos 727)] in
  ts_bits newSeries 1440583200 = bits_of 32 1440583200
  /\ firstn 32 (Bits (Bs s)) = bits_of 32 1440583200
  /\ prevTimeDeltaWrite s1 = 60
  /\ exists r',
       readNextTimestamp s = ((1440583200 mod 2 ^ 32, None), r')
       /\ val_of (firstn 32 (Bits (Bs s))) = 1440583200 mod 2 ^ 32
       /\ BitPos (Bs r') = 32
       /\ prevTimeRead r' = 1440583200 mod 2 ^ 32
       /\ prevTimeDeltaRead r' = 60.
Proof.
  apply (first_timestamp_32_bits newSeries 1440583200 (float64_of_pos 761)
           [(1440583260, float64_of_pos 727)]); reflexivity.
Defined.

(** ** Whole series *)

Section WholeSeries.

Lemma writer_wf_newSeries : writer_wf newSeries.
Proof. unfold writer_wf. cbn. lia. Qed.

(** A fresh series, seen as a reader of what will be appended to it. *)
Lemma synced_fresh (l : list (Z * Z)) :
  synced newSeries (AppendAll newSeries l)
    (written newSeries (AppendAll newSeries l) ++ []).
Proof.
  pose proof (writer_step_AppendAll l newSeries) as Hstep.
  pose proof (writer_step_written _ _ Hstep) as Hw.
  destruct Hstep as (_ & Hp & Ht & Hd & Hv & Hl & Htr).
  constructor; try assumption.
  now rewrite app_nil_r.
Qed.

(** Samples the format can carry round-trip: appended to a fresh series and
    read as many times, they come back in order, bit for bit. *)
Theorem roundtrip_in_range (l : list (Z * Z)) :
  samples_ok newSeries l ->
  fst (ReadN (length l) (AppendAll newSeries l)) = results l.
Proof.
  intros Hok.
  destruct (ReadN_AppendAll l newSeries (AppendAll newSeries l) []
              writer_wf_newSeries Hok (synced_fresh l)) as (r' & Hr & _).
  now rewrite Hr.
Qed.

(** A read with nothing left to read fails with [ErrShortRead]. *)
Lemma Read_at_end (r : Series) :
  at_frame r [] -> fst (Read r) = (0, 0, Some ErrShortRead).
Proof.
  intros Hfr. pose proof (at_frame_length _ _ Hfr) as Hlen.
  cbn [length] in Hlen. unfold Read, readNextTimestamp.
  destruct (Z.eqb_spec (BitPos (Bs r)) 0) as [E | E].
  - rewrite bind_assign.
    erewrite bind_err; [reflexivity|].
    apply readValue_short. fields. unfold BITS_FOR_FIRST_TIMESTAMP. lia.
  - erewrite bind_err; [reflexivity|].
    apply findZero_short; [lia | apply Hfr].
Qed.

(** After samples the format can carry, one read more than was appended
    fails with [ErrShortRead]. *)
Theorem read_past_end_in_range (l : list (Z * Z)) :
  samples_ok newSeries l ->
  fst (Read (snd (ReadN (length l) (AppendAll newSeries l))))
  = (0, 0, Some ErrShortRead).
Proof.
  intros Hok.
  destruct (ReadN_AppendAll l newSeries (AppendAll newSeries l) []
              writer_wf_newSeries Hok (synced_fresh l)) as (r' & Hr & Hs).
  rewrite Hr. apply Read_at_end. exact (synced_at_frame _ _ _ Hs).
Qed.

(** [Read] gives up with the error of the value decoder, in the state the
    value decoder left. *)
Lemma Read_value_error (s s1 s2 : Series) (t v : Z) (e : Err) :
  readNextTimestamp s = ((t, None), s1) ->
  readNextValue s1 = ((v, Some e), s2) ->
  Read s = ((0, 0, Some e), s2).
Proof. intros H1 H2. unfold Read. now rewrite H1, H2. Qed.

End WholeSeries.

(** ** Concrete series *)

(** C3, as stated, fails: the frame of [761.0] has two control bits, so the
    stream of the single sample is one bit longer than
    [32 + 1 + 5 + 6 + k]. *)
Lemma single_sample_size_counterexample :
  let v := float64_of_pos 761 in
  NumBits (Bs (Append newSeries 1440583200 v))
  <> 32 + 1 + 5 + 6 + (64 - Clz v - Ctz v).
Proof. vm_compute. discriminate. Qed.

(** C3, amended.  After appending the single sample [(1440583200, 761.0)] to
    a fresh series, [NumBits] is [32 + 2 + 5 + 6 + k] with
    [k = 64 - clz(bits(761.0)) - ctz(bits(761.0))] (the value frame opens
    with the two control bits [1], [0]); a first [Read] returns exactly
    [(1440583200, 761.0)] and a second [Read] fails with [ErrShortRead]. *)
Theorem single_sample_761 :
  let v := float64_of_pos 761 in
  let s := Append newSeries 1440583200 v in
  v = 0x4087C80000000000
  /\ NumBits (Bs s) = 32 + 2 + 5 + 6 + (64 - Clz v - Ctz v)
  /\ fst (ReadN 2 s) = [(1440583200, v, None); (0, 0, Some ErrShortRead)].
Proof. vm_compute. repeat split. Qed.

(** C1 at a failing input.  The two samples [(0, 0.0)] and
    [(4000000000, 2.0)] have timestamps below [2^32] and finite values, yet
    reading twice after appending both returns [(0, 0.0)] twice, without an
    error: the second sample does not come back. *)
Theorem roundtrip_breaks_on_large_jump :
  let l := [(0, 0); (4000000000, float64_of_pos 2)] in
  Forall (fun p => 0 <= fst p < 2 ^ 32 /\ 0 <= snd p < 2 ^ 64) l
  /\ fst (ReadN 2 (AppendAll newSeries l)) = [(0, 0, None); (0, 0, None)]
  /\ fst (ReadN 2 (AppendAll newSeries l)) <> results l.
Proof.
  cbv zeta. split; [|split].
  - repeat constructor; cbn; try lia; discriminate.
  - vm_compute. reflexivity.
  - vm_compute. discriminate.
Qed.

(** C2 at a failing input.  After the sample [(0, 0.0)], the timestamp
    [4000000000] has the non-zero delta of delta [3999999940], and
    [appendTimestamp] writes no bit for it: neither a control prefix nor a
    payload. *)
Theorem large_jump_writes_no_timestamp_frame :
  let s := Append newSeries 0 0 in
  StreamLen (Bs s) <> 0
  /\ ts_dd s 4000000000 = 3999999940
  /\ ts_bits s 4000000000 = []
  /\ Bits (Bs (appendTimestamp s 4000000000)) = Bits (Bs s).
Proof.
  cbv zeta. split; [vm_compute; discriminate|].
  vm_compute. repeat split.
Qed.

(** C8 at a failing input.  On a fresh series the first [Read] fails with
    [ErrShortRead]; but after the two appends [(0, 0.0)] and
    [(4000000000, 2.0)] the third [Read] succeeds. *)
Theorem read_past_end_succeeds_after_large_jump :
  fst (Read newSeries) = (0, 0, Some ErrShortRead)
  /\ fst (ReadN 3 (AppendAll newSeries
                     [(0, 0); (4000000000, float64_of_pos 2)]))
     = [(0, 0, None); (0, 0, None); (0, 0, None)].
Proof. vm_compute. split; reflexivity. Qed.

(** C10.  [Read] is not atomic on error: there is a series (reached by three
    appends and two reads) on which the timestamp decoder succeeds and the
    value decoder then fails with [ErrShortRead]; [Read] returns the error
    with zero results, while [prevTimeRead], [prevTimeDeltaRead] and the
    cursor keep the values the timestamp decoder gave them, all different
    from those before the call, so that a retry starts from another state:
    its timestamp decoder now fails, where it had succeeded. *)
Theorem Read_not_atomic_on_error :
  exists (s s1 s2 : Series) (t : Z),
    s = snd (ReadN 2 (AppendAll newSeries
                        [(0, float64_of_pos 1); (60, float64_of_pos 1);
                         (4000000000, 0x3FE0000000000000)]))
    /\ readNextTimestamp s = ((t, None), s1)
    /\ readNextValue s1 = ((0, Some ErrShortRead), s2)
    /\ Read s = ((0, 0, Some ErrShortRead), s2)
    /\ prevTimeRead s2 = prevTimeRead s1
    /\ prevTimeDeltaRead s2 = prevTimeDeltaRead s1
    /\ BitPos (Bs s2) = BitPos (Bs s1)
    /\ prevTimeRead s2 <> prevTimeRead s
    /\ prevTimeDeltaRead s2 <> prevTimeDeltaRead s
    /\ BitPos (Bs s2) <> BitPos (Bs s)
    /\ snd (fst (readNextTimestamp s2)) = Some ErrShortRead.
Proof.
  eexists. eexists. eexists. eexists.
  split; [reflexivity|].
  split; [vm_compute; reflexivity|].
  split; [vm_compute; reflexivity|].
  split; [vm_compute; reflexivity|].
  vm_compute. repeat split; discriminate.
Qed.

(** ** Sequences with moderate steps *)

Section Gentle.

(** The time fields [Append] leaves, for a timestamp that is not the first
    and is close to the previous one. *)
Lemma Append_near (w : Series) (t v : Z) :
  StreamLen (Bs w) <> 0 ->
  Z.abs (t - prevTimeWrite w) < 2 ^ 30 ->
  Z.abs (prevTimeDeltaWrite w) < 2 ^ 30 ->
  ts_dd w t = t - prevTimeWrite w - prevTimeDeltaWrite w
  /\ Z.abs (adj_dd (ts_dd w t)) < 2 ^ 31
  /\ prevTimeWrite (Append w t v) = t
  /\ prevTimeDeltaWrite (Append w t v) = t - prevTimeWrite w.
Proof.
  intros Hlen Ht Hd.
  assert (Hdelta : ts_delta w t = t - prevTimeWrite w).
  { unfold ts_delta. apply int64_small. lia. }
  assert (Hdd : ts_dd w t = t - prevTimeWrite w - prevTimeDeltaWrite w).
  { unfold ts_dd. rewrite Hdelta. apply int64_small. lia. }
  assert (Habs : Z.abs (adj_dd (ts_dd w t)) < 2 ^ 31).
  { rewrite Hdd. unfold adj_dd. destruct (_ <? _); lia. }
  split; [exact Hdd|]. split; [exact Habs|].
  unfold Append.
  destruct (appendValue_time_fields (appendTimestamp w t) v) as [-> ->].
  destruct (Z.eq_dec (ts_dd w t) 0) as [E | E].
  - rewrite (appendTimestamp_same w t Hlen E). fields. split; lia.
  - rewrite (appendTimestamp_frame w t Hlen E Habs). fields.
    split; [reflexivity | exact Hdelta].
Qed.

Lemma gentle_from_samples_ok (l : list (Z * Z)) (w : Series) :
  StreamLen (Bs w) <> 0 ->
  Z.abs (prevTimeDeltaWrite w) < 2 ^ 30 ->
  gentle_from (prevTimeWrite w) l ->
  samples_ok w l.
Proof.
  revert w. induction l as [|[t v] l IH]; intros w Hlen Hd Hg;
    [exact I|].
  cbn [gentle_from samples_ok fst snd] in *.
  destruct Hg as (Ht & Hstep & Hv & Hg).
  destruct (Append_near w t v Hlen Hstep Hd) as (_ & Habs & Hpt & Hpd).
  split; [|split; [exact Hv|]].
  - unfold ts_ok. destruct (Z.eqb_spec (StreamLen (Bs w)) 0); [contradiction|].
    split; assumption.
  - apply IH.
    + apply (writer_step_nonempty w); [apply writer_step_Append | exact Hlen].
    + rewrite Hpd. exact Hstep.
    + rewrite Hpt. exact Hg.
Qed.

Lemma gentle_samples_ok (l : list (Z * Z)) :
  gentle l -> samples_ok newSeries l.
Proof.
  destruct l as [|[t v] l]; [intros _; exact I|].
  cbn [gentle samples_ok fst snd]. intros (Ht & Hv & Hg).
  split; [exact Ht|]. split; [exact Hv|].
  assert (Hfirst : appendTimestamp newSeries t
                   = set_prevTimeDeltaWrite
                       (set_prevTimeWrite (wrote newSeries (bits_of 32 t)) t)
                       DEFAULT_DELTA) by reflexivity.
  destruct (appendValue_time_fields (appendTimestamp newSeries t) v)
    as [Hpt Hpd].
  apply gentle_from_samples_ok.
  - apply (writer_step_nonempty (appendTimestamp newSeries t));
      [apply writer_step_appendValue|].
    rewrite Hfirst. intros E. apply StreamLen_zero in E. discriminate E.
  - unfold Append. rewrite Hpd, Hfirst. fields. cbn. lia.
  - unfold Append. rewrite Hpt, Hfirst. exact Hg.
Qed.

End Gentle.

(** X1.  Round trip.  A sequence of samples whose first timestamp is below
    [2^32], whose later timestamps are each at less than [2^30] from the one
    before and whose values are any 64-bit patterns comes back from [Read],
    sample by sample and bit for bit, after it was appended to a fresh
    series; the reader has then consumed the whole stream. *)
Theorem roundtrip_gentle (l : list (Z * Z)) :
  gentle l ->
  let r := ReadN (length l) (AppendAll newSeries l) in
  fst r = results l
  /\ BitPos (Bs (snd r)) = NumBits (Bs (snd r)).
Proof.
  intros Hg. apply gentle_samples_ok in Hg.
  destruct (ReadN_AppendAll l newSeries (AppendAll newSeries l) []
              writer_wf_newSeries Hg (synced_fresh l)) as (r' & Hr & Hs).
  cbv zeta. rewrite Hr. split; [reflexivity|]. cbn [snd].
  rewrite (sync_pos _ _ _ Hs). unfold NumBits.
  rewrite (sync_bits _ _ _ Hs). now rewrite app_nil_r.
Qed.

Lemma roundtrip_gentle_witness :
  let l := [(1440583200, float64_of_pos 761);
            (1440583260, float64_of_pos 727);
            (1440583320, float64_of_pos 765)] in
  let r := ReadN (length l) (AppendAll newSeries l) in
  fst r = results l
  /\ BitPos (Bs (snd r)) = NumBits (Bs (snd r)).
Proof.
  apply (roundtrip_gentle [(1440583200, float64_of_pos 761);
                           (1440583260, float64_of_pos 727);
                           (1440583320, float64_of_pos 765)]).
  cbn [gentle gentle_from fst snd]. vm_compute.
  repeat split; discriminate.
Defined.

(** X2.  Under-read.  After such a sequence, one [Read] more than samples
    were appended fails with [ErrShortRead] and returns zero results. *)
Theorem read_past_end_gentle (l : list (Z * Z)) :
  gentle l ->
  fst (Read (snd (ReadN (length l) (AppendAll newSeries l))))
  = (0, 0, Some ErrShortRead).
Proof. intros Hg. apply read_past_end_in_range, gentle_samples_ok, Hg. Qed.

Lemma read_past_end_gentle_witness :
  let l := [(1440583200, float64_of_pos 761);
            (1440583260, float64_of_pos 727)] in
  fst (Read (snd (ReadN (length l) (AppendAll newSeries l))))
  = (0, 0, Some ErrShortRead).
Proof.
  apply (read_past_end_gentle [(1440583200, float64_of_pos 761);
                               (1440583260, float64_of_pos 727)]).
  cbn [gentle gentle_from fst snd]. vm_compute.
  repeat split; discriminate.
Defined.

(** ** The writer leaves the reader alone *)

(** X3.  [Append] only writes: it keeps the bits already in the stream as a
    prefix, and changes neither the read cursor nor any reader field. *)
Theorem Append_only_writes (s : Series) (timestamp value : Z) :
  let s' := Append s timestamp value in
  Bits (Bs s') = Bits (Bs s) ++ sample_bits s timestamp value
  /\ BitPos (Bs s') = BitPos (Bs s)
  /\ prevTimeRead s' = prevTimeRead s
  /\ prevTimeDeltaRead s' = prevTimeDeltaRead s
  /\ prevValueRead s' = prevValueRead s
  /\ prevLeadingRead s' = prevLeadingRead s
  /\ prevTrailingRead s' = prevTrailingRead s.
Proof.
  pose proof (writer_step_Append s timestamp value) as H.
  pose proof (writer_step_written _ _ H) as Hw.
  destruct H as (_ & H). cbv zeta. split; [exact Hw | exact H].
Qed.

(** ** The reader leaves the writer alone *)

Section OnlyReads.

Lemma reader_step_refl (r : Series) : reader_step r r.
Proof. unfold reader_step. repeat split; lia. Qed.

Lemma reader_step_trans (a b c : Series) :
  reader_step a b -> reader_step b c -> reader_step a c.
Proof.
  unfold reader_step, NumBits.
  intros (Hb1 & H1 & H2 & H3 & H4 & H5 & Hm1 & Hc1)
         (Hb2 & G1 & G2 & G3 & G4 & G5 & Hm2 & Hc2).
  rewrite Hb1 in *. rewrite Hb2 in *.
  repeat split; try congruence; lia.
Qed.

Lemma only_reads_ret {A : Type} (a : A) : only_reads (ret a).
Proof. intros r a' e r' H. injection H as _ _ <-. apply reader_step_refl. Qed.

Lemma only_reads_gets {A : Type} (f : Series -> A) : only_reads (gets f).
Proof. intros r a' e r' H. injection H as _ _ <-. apply reader_step_refl. Qed.

Lemma only_reads_assign (g : Series -> Series) :
  (forall r, reader_step r (g r)) -> only_reads (assign g).
Proof. intros Hg r a' e r' H. injection H as _ _ <-. apply Hg. Qed.

Lemma only_reads_bind {A B : Type} `{Zero B} (c : M A) (k : A -> M B) :
  only_reads c -> (forall a, only_reads (k a)) -> only_reads (bind c k).
Proof.
  intros Hc Hk r b e r' Hrun. unfold bind in Hrun.
  destruct (c r) as [[a [e1|]] r1] eqn:Ec.
  - injection Hrun as _ _ <-. exact (Hc _ _ _ _ Ec).
  - eapply reader_step_trans; [exact (Hc _ _ _ _ Ec) | exact (Hk _ _ _ _ _ Hrun)].
Qed.

Lemma only_reads_readValue (width : Z) :
  0 <= width -> only_reads (readValue width).
Proof.
  intros Hw r a e r' Hrun. unfold readValue, ReadValueFromBitStream in Hrun.
  destruct (Z.ltb_spec (NumBits (Bs r)) (BitPos (Bs r) + width)).
  - injection Hrun as _ _ <-. destruct r; apply reader_step_refl.
  - injection Hrun as _ _ <-. unfold reader_step, NumBits in *. fields.
    repeat split; lia.
Qed.

(** The scan stops inside the bits it is given. *)
Lemma first_zero_bound (limit : nat) (l : list bool) (k : nat) :
  first_zero limit l = Some k ->
  (k <= limit)%nat
  /\ ((k < limit)%nat -> (k + 1 <= length l)%nat)
  /\ (k <= length l)%nat.
Proof.
  revert l k. induction limit as [|n IH]; intros l k H; cbn [first_zero] in H.
  - injection H as <-. lia.
  - destruct l as [|[|] l]; [discriminate| |].
    + destruct (first_zero n l) as [k'|] eqn:E; [|discriminate].
      cbn in H. injection H as <-. destruct (IH _ _ E) as (H1 & H2 & H3).
      cbn [length]. lia.
    + injection H as <-. cbn [length]. lia.
Qed.

Lemma only_reads_findZero (limit : Z) : only_reads (findZero limit).
Proof.
  intros r a e r' Hrun. unfold findZero, FindTheFirstZerobit in Hrun.
  destruct (first_zero _ _) as [k|] eqn:E.
  - injection Hrun as _ _ <-.
    destruct (first_zero_bound _ _ _ E) as (H1 & H2 & H3).
    rewrite length_skipn in H2, H3.
    unfold reader_step, NumBits in *. fields.
    destruct (Z.ltb_spec (Z.of_nat k) limit); repeat split; try lia.
  - injection Hrun as _ _ <-. destruct r; apply reader_step_refl.
Qed.

Lemma bitsForvalue_enc_nonneg (i : Z) : 0 <= bitsForvalue (enc i).
Proof.
  unfold enc. destruct (Z.to_nat i) as [|[|[|[|[|n]]]]]; cbn; lia.
Qed.

Lemma wrap64_nonneg (x : Z) : 0 <= wrap64 x.
Proof. apply wrap64_range. Qed.

Ltac only_reads_tac :=
  repeat first
    [ apply only_reads_ret
    | apply only_reads_gets
    | apply only_reads_findZero
    | apply only_reads_readValue;
        first [ apply wrap64_nonneg | apply bitsForvalue_enc_nonneg
              | discriminate ]
    | apply only_reads_assign; intros; unfold reader_step; fields;
        repeat split; auto; lia
    | apply only_reads_bind
    | match goal with |- forall _, only_reads _ => intro end ].

Lemma only_reads_readNextTimestamp : only_reads readNextTimestamp.
Proof.
  intros r a e r' Hrun. unfold readNextTimestamp in Hrun.
  destruct (BitPos (Bs r) =? 0).
  - revert r a e r' Hrun.
    change (only_reads
      (assign (fun s => set_prevTimeDeltaRead s DEFAULT_DELTA) ;;;
       res <- readValue BITS_FOR_FIRST_TIMESTAMP ;;
       assign (fun s => set_prevTimeRead s res) ;;; ret res)).
    only_reads_tac.
  - revert r a e r' Hrun.
    match goal with
    | |- forall r a e r', ?c r = _ -> _ => change (only_reads c)
    end.
    only_reads_tac.
    destruct (0 <? _); only_reads_tac.
Qed.

Lemma only_reads_readNextValue : only_reads readNextValue.
Proof.
  unfold readNextValue. only_reads_tac.
  destruct (_ =? 0); only_reads_tac.
  destruct (_ =? 1); only_reads_tac.
Qed.

End OnlyReads.

(** X4.  [Read] only reads: whether it succeeds or fails, the bits of the
    stream and every writer field are as before, the cursor has not moved
    back, and a cursor inside the stream stays inside. *)
Theorem Read_only_reads (s s' : Series) (res : Z * Z * error) :
  Read s = (res, s') ->
  Bits (Bs s') = Bits (Bs s)
  /\ prevTimeWrite s' = prevTimeWrite s
  /\ prevTimeDeltaWrite s' = prevTimeDeltaWrite s
  /\ prevValueWrite s' = prevValueWrite s
  /\ prevLeadingWrite s' = prevLeadingWrite s
  /\ prevTrailingWrite s' = prevTrailingWrite s
  /\ BitPos (Bs s) <= BitPos (Bs s')
  /\ (0 <= BitPos (Bs s) <= NumBits (Bs s) ->
      BitPos (Bs s') <= NumBits (Bs s')).
Proof.
  intros Hrun. change (reader_step s s'). unfold Read in Hrun.
  destruct (readNextTimestamp s) as [[t [e|]] s1] eqn:E1.
  - injection Hrun as _ <-. exact (only_reads_readNextTimestamp _ _ _ _ E1).
  - destruct (readNextValue s1) as [[v [e|]] s2] eqn:E2;
      injection Hrun as _ <-;
      (eapply reader_step_trans;
        [exact (only_reads_readNextTimestamp _ _ _ _ E1)
        | exact (only_reads_readNextValue _ _ _ _ E2)]).
Qed.

Lemma Read_only_reads_witness :
  let s := Append newSeries 1440583200 (float64_of_pos 761) in
  let s' := snd (Read s) in
  Bits (Bs s') = Bits (Bs s)
  /\ prevTimeWrite s' = prevTimeWrite s
  /\ prevTimeDeltaWrite s' = prevTimeDeltaWrite s
  /\ prevValueWrite s' = prevValueWrite s
  /\ prevLeadingWrite s' = prevLeadingWrite s
  /\ prevTrailingWrite s' = prevTrailingWrite s
  /\ BitPos (Bs s) <= BitPos (Bs s')
  /\ (0 <= BitPos (Bs s) <= NumBits (Bs s) ->
      BitPos (Bs s') <= NumBits (Bs s')).
Proof.
  apply (Read_only_reads
           (Append newSeries 1440583200 (float64_of_pos 761))
           (snd (Read (Append newSeries 1440583200 (float64_of_pos 761))))
           (fst (Read (Append newSeries 1440583200 (float64_of_pos 761))))).
  vm_compute. reflexivity.
Defined.

(** ** Reads do not depend on later appends *)

Section Stable.

Lemma stable_ret {A : Type} (a : A) : stable (ret a).
Proof.
  intros r r' a' r1 He H. injection H as <- <-. exists r'. split;
    [reflexivity | exact He].
Qed.

Lemma stable_gets {A : Type} (f : Series -> A) :
  (forall r r', extends r r' -> f r' = f r) -> stable (gets f).
Proof.
  intros Hf r r' a' r1 He H. injection H as <- <-. exists r'.
  split; [unfold gets; now rewrite (Hf _ _ He) | exact He].
Qed.

Lemma stable_assign (g : Series -> Series) :
  (forall r r', extends r r' -> extends (g r) (g r')) -> stable (assign g).
Proof.
  intros Hg r r' a' r1 He H. injection H as <- <-. exists (g r').
  split; [reflexivity | exact (Hg _ _ He)].
Qed.

Lemma stable_bind {A B : Type} `{Zero B} (c : M A) (k : A -> M B) :
  stable c -> (forall a, stable (k a)) -> stable (bind c k).
Proof.
  intros Hc Hk r r' b r2 He Hrun. unfold bind in Hrun.
  destruct (c r) as [[a [e1|]] r1] eqn:Ec; [discriminate Hrun|].
  destruct (Hc _ _ _ _ He Ec) as (r1' & Ec' & He1).
  destruct (Hk a _ _ _ _ He1 Hrun) as (r2' & Ek' & He2).
  exists r2'. split; [|exact He2]. unfold bind. now rewrite Ec'.
Qed.

(** Bits that were there are read the same from a longer stream. *)
Lemma firstn_skipn_app (l tl : list bool) (p n : nat) :
  (p + n <= length l)%nat ->
  firstn n (skipn p (l ++ tl)) = firstn n (skipn p l).
Proof.
  intros H. rewrite skipn_app, firstn_app, length_skipn.
  replace (n - (length l - p))%nat with 0%nat by lia.
  cbn [firstn]. now rewrite app_nil_r.
Qed.

Lemma stable_readValue (width : Z) :
  0 <= width -> stable (readValue width).
Proof.
  intros Hw r r' a r1 ([tl Htl] & Hp & Hpos & Hrest) Hrun.
  unfold readValue, ReadValueFromBitStream in *.
  rewrite Hp. unfold NumBits in *. rewrite Htl, length_app, Nat2Z.inj_add.
  destruct (Z.ltb_spec (Z.of_nat (length (Bits (Bs r))))
              (BitPos (Bs r) + width)) as [|Hle]; [discriminate Hrun|].
  destruct (Z.ltb_spec (Z.of_nat (length (Bits (Bs r)))
                        + Z.of_nat (length tl))
              (BitPos (Bs r) + width)); [lia|].
  injection Hrun as <- <-.
  assert (Hf : firstn (Z.to_nat width)
                 (skipn (Z.to_nat (BitPos (Bs r))) (Bits (Bs r) ++ tl))
               = firstn (Z.to_nat width)
                   (skipn (Z.to_nat (BitPos (Bs r))) (Bits (Bs r)))).
  { apply firstn_skipn_app. lia. }
  rewrite Hf. eexists. split; [reflexivity|].
  unfold extends. fields.
  repeat split; try tauto; try lia. exists tl.
  first [exact Htl | reflexivity].
Qed.

Lemma first_zero_app (limit : nat) (l tl : list bool) (k : nat) :
  first_zero limit l = Some k -> first_zero limit (l ++ tl) = Some k.
Proof.
  revert l k. induction limit as [|n IH]; intros l k H; [exact H|].
  cbn [first_zero] in *. destruct l as [|[|] l]; [discriminate| |exact H].
  cbn [app]. destruct (first_zero n l) as [k'|] eqn:E; [|discriminate].
  now rewrite (IH _ _ E).
Qed.

Lemma stable_findZero (limit : Z) : stable (findZero limit).
Proof.
  intros r r' a r1 ([tl Htl] & Hp & Hpos & Hrest) Hrun.
  unfold findZero, FindTheFirstZerobit in *. rewrite Hp, Htl.
  destruct (first_zero _ (skipn _ (Bits (Bs r)))) as [k|] eqn:E;
    [|discriminate Hrun].
  injection Hrun as <- <-.
  destruct (first_zero_bound _ _ _ E) as (_ & _ & Hk).
  rewrite length_skipn in Hk.
  rewrite skipn_app.
  rewrite (first_zero_app _ _ _ _ E).
  eexists. split; [reflexivity|].
  unfold extends. fields.
  destruct (Z.ltb_spec (Z.of_nat k) limit);
    repeat split; try tauto; try lia; exists tl;
    first [exact Htl | reflexivity].
Qed.

Ltac stable_tac :=
  repeat first
    [ apply stable_ret
    | apply stable_findZero
    | apply stable_readValue;
        first [ apply wrap64_nonneg | apply bitsForvalue_enc_nonneg
              | discriminate ]
    | apply stable_gets; intros ? ? Hext; unfold extends in Hext; tauto
    | apply stable_assign; intros ? ? Hext; unfold extends in *; fields;
        destruct Hext as (? & ? & ? & ? & ? & ? & ? & ?);
        repeat split; try assumption; congruence
    | apply stable_bind
    | match goal with |- forall _, stable _ => intro end ].

Lemma stable_readNextTimestamp : stable readNextTimestamp.
Proof.
  intros r r' a r1 He Hrun.
  assert (Hp : BitPos (Bs r') = BitPos (Bs r)) by apply He.
  unfold readNextTimestamp in *. rewrite Hp.
  destruct (BitPos (Bs r) =? 0).
  - revert r r' a r1 He Hrun Hp.
    assert (Hst : stable
      (assign (fun s => set_prevTimeDeltaRead s DEFAULT_DELTA) ;;;
       res <- readValue BITS_FOR_FIRST_TIMESTAMP ;;
       assign (fun s => set_prevTimeRead s res) ;;; ret res))
      by stable_tac.
    intros r r' a r1 He Hrun _. exact (Hst _ _ _ _ He Hrun).
  - revert Hrun.
    match goal with
    | |- ?c r = _ -> _ => assert (Hst : stable c)
    end.
    { stable_tac. destruct (0 <? _); stable_tac. }
    intros Hrun. exact (Hst _ _ _ _ He Hrun).
Qed.

Lemma stable_readNextValue : stable readNextValue.
Proof.
  unfold readNextValue. stable_tac.
  destruct (_ =? 0); stable_tac.
  destruct (_ =? 1); stable_tac.
Qed.

Lemma writer_step_extends (r r' : Series) :
  0 <= BitPos (Bs r) -> writer_step r r' -> extends r r'.
Proof. intros Hp H. unfold writer_step, extends in *. tauto. Qed.

End Stable.

(** X5.  Independence.  A [Read] that succeeds returns the same sample when
    it is made after further appends instead: what [Read] returns depends
    only on the bits it consumes. *)
Theorem Read_before_or_after_appends (s s' : Series)
    (timestamp value : Z) (more : list (Z * Z)) :
  0 <= BitPos (Bs s) ->
  Read s = ((timestamp, value, None), s') ->
  fst (Read (AppendAll s more)) = (timestamp, value, None).
Proof.
  intros Hpos Hrun.
  pose proof (writer_step_extends _ _ Hpos (writer_step_AppendAll more s))
    as He.
  unfold Read in *.
  destruct (readNextTimestamp s) as [[t [e|]] s1] eqn:E1;
    [discriminate Hrun|].
  destruct (readNextValue s1) as [[v [e|]] s2] eqn:E2;
    [discriminate Hrun|].
  injection Hrun as <- <- <-.
  destruct (stable_readNextTimestamp _ _ _ _ He E1) as (s1' & E1' & He1).
  destruct (stable_readNextValue _ _ _ _ He1 E2) as (s2' & E2' & _).
  now rewrite E1', E2'.
Qed.

Lemma Read_before_or_after_appends_witness :
  fst (Read (AppendAll (Append newSeries 1440583200 (float64_of_pos 761))
               [(1440583260, float64_of_pos 727)]))
  = (1440583200, float64_of_pos 761, None).
Proof.
  apply (Read_before_or_after_appends
           (Append newSeries 1440583200 (float64_of_pos 761))
           (snd (Read (Append newSeries 1440583200 (float64_of_pos 761))))
           1440583200 (float64_of_pos 761)
           [(1440583260, float64_of_pos 727)]).
  - vm_compute. discriminate.
  - vm_compute. reflexivity.
Defined.

(** ** Sizes of frames *)

Section Sizes.

Lemma written_fields (w : Series) (l : list bool) (w' : Series) :
  Bits (Bs w') = Bits (Bs w) ++ l -> written w w' = l.
Proof.
  intros H. unfold written. rewrite H.
  now rewrite skipn_app, skipn_all, Nat.sub_diag.
Qed.

(** A timestamp takes 32 bits when it is the first, and otherwise 1, 9, 12,
    16 or 36 bits, or none at all. *)
Lemma ts_bits_length (w : Series) (t : Z) :
  if StreamLen (Bs w) =? 0 then length (ts_bits w t) = 32%nat
  else In (length (ts_bits w t)) [0; 1; 9; 12; 16; 36]%nat.
Proof.
  unfold ts_bits, appendTimestamp.
  destruct (StreamLen (Bs w) =? 0).
  - rewrite (written_fields w (bits_of 32 t)) by reflexivity.
    apply bits_of_length.
  - destruct (_ =? 0).
    + rewrite (written_fields w [false]) by reflexivity. cbn. tauto.
    + rewrite appendTimestamp_loop_cases.
      destruct (_ <? 2 ^ 31).
      * cbv zeta. rewrite !addValue_wrote, wrote_wrote.
        erewrite written_fields by reflexivity.
        rewrite length_app, !bits_of_length.
        unfold bucket.
        destruct (_ <? 64); [enc_eval; cbn; tauto|].
        destruct (_ <? 256); [enc_eval; cbn; tauto|].
        destruct (_ <? 2048); enc_eval; cbn; tauto.
      * rewrite (written_fields w []) by (fields; now rewrite app_nil_r).
        cbn. tauto.
Qed.

(** A value takes 1 bit when unchanged, and otherwise 2 bits and the
    previous block width, or 13 bits and its own block size. *)
Lemma value_bits_length (w : Series) (v : Z) :
  writer_wf w ->
  0 <= v < 2 ^ 64 ->
  let x := Z.lxor v (prevValueWrite w) in
  Z.of_nat (length (value_bits w v))
  = if x =? 0 then 1
    else if reuse_cond w x then 2 + prev_block_width w
    else 13 + block_size x.
Proof.
  intros Hwf Hv x. unfold value_bits.
  destruct (Z.eqb_spec x 0) as [E | E].
  - rewrite (appendValue_same w v E), written_wrote. reflexivity.
  - pose proof (appendValue_changed w v Hwf Hv E) as Happ. cbv zeta in Happ.
    fold x in Happ. rewrite Happ.
    destruct Hwf as (Hpv & Hpl & Hpt & Hsum).
    assert (Hxr : 0 < x < 2 ^ 64).
    { pose proof (lxor_range v (prevValueWrite w) Hv Hpv). subst x. lia. }
    pose proof (block_size_range x Hxr) as Hbs.
    destruct (reuse_cond w x).
    + rewrite (written_fields w (reuse_frame w x)) by reflexivity.
      unfold reuse_frame. rewrite length_app, bits_of_length. cbn [length].
      rewrite Nat2Z.inj_add, Z2Nat.id by (unfold prev_block_width; lia).
      reflexivity.
    + rewrite (written_fields w (fresh_frame x)) by reflexivity.
      unfold fresh_frame. rewrite !length_app, !bits_of_length.
      cbn [length]. lia.
Qed.

End Sizes.

(** X6.  Size of a sample.  Whatever the state of the writer and whatever the
    timestamp, one [Append] of a 64-bit value adds at least 1 and at most
    113 bits to the stream (36 for the timestamp, 77 for the value); the
    first sample of a series takes at least 33. *)
Theorem sample_size_bounds (s : Series) (timestamp value : Z) :
  writer_wf s ->
  0 <= value < 2 ^ 64 ->
  let n := NumBits (Bs (Append s timestamp value)) - NumBits (Bs s) in
  1 <= n <= 113 /\ (StreamLen (Bs s) = 0 -> 33 <= n).
Proof.
  intros Hwf Hv n.
  assert (Hn : n = Z.of_nat (length (ts_bits s timestamp))
                   + Z.of_nat (length
                       (value_bits (appendTimestamp s timestamp) value))).
  { subst n. unfold Append.
    rewrite (NumBits_written (appendTimestamp s timestamp))
      by apply writer_step_appendValue.
    rewrite (NumBits_written s) by apply writer_step_appendTimestamp.
    unfold ts_bits, value_bits. ring. }
  pose proof (ts_bits_length s timestamp) as Hts.
  pose proof (value_bits_length _ value
                (appendTimestamp_writer_wf s timestamp Hwf) Hv) as Hvl.
  cbv zeta in Hvl.
  pose proof (appendTimestamp_writer_wf s timestamp Hwf)
    as (Hpv & Hpl & Hpt & Hsum).
  set (w := appendTimestamp s timestamp) in *.
  set (x := Z.lxor value (prevValueWrite w)) in *.
  assert (Hval : 1 <= Z.of_nat (length (value_bits w value)) <= 77).
  { rewrite Hvl. destruct (Z.eqb_spec x 0) as [E | E]; [lia|].
    assert (Hxr : 0 < x < 2 ^ 64).
    { pose proof (lxor_range value (prevValueWrite w) Hv Hpv).
      subst x. lia. }
    pose proof (block_size_range x Hxr).
    destruct (reuse_cond w x); unfold prev_block_width; lia. }
  destruct (Z.eqb_spec (StreamLen (Bs s)) 0) as [E | E].
  - rewrite Hts in Hn. split; [lia|]. intros _. lia.
  - split; [|intros E'; contradiction].
    cbn [In] in Hts.
    destruct Hts as [H | [H | [H | [H | [H | [H | []]]]]]];
      rewrite <- H in Hn; lia.
Qed.

Lemma sample_size_bounds_witness :
  let s := Append newSeries 1440583200 (float64_of_pos 761) in
  let n := NumBits (Bs (Append s 1440583260 (float64_of_pos 727)))
           - NumBits (Bs s) in
  1 <= n <= 113 /\ (StreamLen (Bs s) = 0 -> 33 <= n).
Proof.
  apply (sample_size_bounds
           (Append newSeries 1440583200 (float64_of_pos 761))
           1440583260 (float64_of_pos 727)).
  - vm_compute. repeat split; discriminate.
  - vm_compute. split; [discriminate | reflexivity].
Defined.

(** ** The two codecs on their own *)

(** X7.  Value round trip.  For every writer state whose recorded block lies
    inside the word and every 64-bit value, a reader in step with the writer
    gets the value back, bit for bit, from the frame [appendValue] writes,
    and is in step again afterwards.  This covers the unchanged value, both
    frames of a changed one, and XORs with more than 31 leading zeros, whose
    leading count is clamped to 31. *)
Theorem value_roundtrip (w r : Series) (value : Z) (rest : list bool) :
  writer_wf w ->
  0 <= value < 2 ^ 64 ->
  synced w r (value_bits w value ++ rest) ->
  fst (readNextValue r) = (value, None)
  /\ synced (appendValue w value) (snd (readNextValue r)) rest.
Proof.
  intros Hwf Hv Hs.
  destruct (value_step w r value rest Hwf Hv Hs) as (r' & Hr & Hs' & _).
  rewrite Hr. split; [reflexivity | exact Hs'].
Qed.

Lemma value_roundtrip_witness :
  let w := appendTimestamp newSeries 1440583200 in
  let r := snd (readNextTimestamp (appendValue w 1)) in
  fst (readNextValue r) = (1, None)
  /\ synced (appendValue w 1) (snd (readNextValue r)) [].
Proof.
  apply (value_roundtrip (appendTimestamp newSeries 1440583200)
           (snd (readNextTimestamp
                   (appendValue (appendTimestamp newSeries 1440583200) 1)))
           1 []).
  - vm_compute. repeat split; discriminate.
  - lia.
  - constructor; vm_compute; reflexivity.
Defined.

(** X8.  Timestamp round trip.  A first timestamp below [2^32], or a later
    [uint64] timestamp whose adjusted delta of delta is below [2^31] in
    magnitude (zero included), is returned by [readNextTimestamp] to a
    reader in step with the writer, which is in step again afterwards. *)
Theorem timestamp_roundtrip (w r : Series) (timestamp : Z)
    (rest : list bool) :
  ts_ok w timestamp ->
  synced w r (ts_bits w timestamp ++ rest) ->
  fst (readNextTimestamp r) = (timestamp, None)
  /\ synced (appendTimestamp w timestamp) (snd (readNextTimestamp r)) rest.
Proof.
  intros Hok Hs.
  destruct (timestamp_step w r timestamp rest Hok Hs) as (r' & Hr & Hs').
  rewrite Hr. split; [reflexivity | exact Hs'].
Qed.

Lemma timestamp_roundtrip_witness :
  let w := Append newSeries 1440583200 (float64_of_pos 761) in
  let r := snd (Read (appendTimestamp w 1440583260)) in
  fst (readNextTimestamp r) = (1440583260, None)
  /\ synced (appendTimestamp w 1440583260) (snd (readNextTimestamp r)) [].
Proof.
  apply (timestamp_roundtrip
           (Append newSeries 1440583200 (float64_of_pos 761))
           (snd (Read (appendTimestamp
                         (Append newSeries 1440583200 (float64_of_pos 761))
                         1440583260)))
           1440583260 []).
  - vm_compute. repeat split; discriminate.
  - constructor; vm_compute; reflexivity.
Defined.

(** ** Invariants of the writer *)

Section WriterInvariant.

Lemma appendValue_writer_wf (w : Series) (v : Z) :
  writer_wf w -> 0 <= v < 2 ^ 64 -> writer_wf (appendValue w v).
Proof.
  intros Hwf Hv.
  destruct (Z.eq_dec (Z.lxor v (prevValueWrite w)) 0) as [E | E].
  - rewrite (appendValue_same w v E). exact Hwf.
  - pose proof (appendValue_changed w v Hwf Hv E) as Happ. cbv zeta in Happ.
    rewrite Happ. destruct Hwf as (Hpv & Hpl & Hpt & Hsum).
    set (x := Z.lxor v (prevValueWrite w)) in *.
    assert (Hxr : 0 < x < 2 ^ 64).
    { pose proof (lxor_range v (prevValueWrite w) Hv Hpv). subst x. lia. }
    pose proof (leading_of_spec x Hxr) as (Hl & Hlc & _).
    pose proof (Ctz_spec x (proj1 Hxr)) as (Hct & _ & _).
    pose proof (Clz_Ctz_sum x Hxr).
    destruct (reuse_cond w x); unfold writer_wf; fields; lia.
Qed.

Lemma last_cons_default {A : Type} (l : list A) (a d : A) :
  last (a :: l) d = last l a.
Proof.
  revert a d. induction l as [|b l IH]; intros a d; [reflexivity|].
  change (last (a :: b :: l) d) with (last (b :: l) d).
  now rewrite !IH.
Qed.

Lemma snd_last_default (l : list (Z * Z)) (a b v : Z) :
  snd (last l (a, v)) = snd (last l (b, v)).
Proof. destruct l as [|p l]; [reflexivity|]. now rewrite !last_cons_default. Qed.

End WriterInvariant.

(** X9.  Invariant of the writer.  After any appends of 64-bit values to a
    fresh series, with any timestamps, the block the writer has on record
    lies inside the 64-bit word: [prevLeadingWrite <= 31],
    [prevLeadingWrite + prevTrailingWrite <= 63], so that the width
    [64 - prevLeadingWrite - prevTrailingWrite] of a frame that uses it is
    between 1 and 64; and [prevValueWrite] is the last value appended. *)
Theorem writer_block_in_word (l : list (Z * Z)) :
  Forall (fun p => 0 <= snd p < 2 ^ 64) l ->
  let s := AppendAll newSeries l in
  0 <= prevLeadingWrite s <= 31
  /\ 0 <= prevTrailingWrite s
  /\ prevLeadingWrite s + prevTrailingWrite s <= 63
  /\ 1 <= prev_block_width s <= 64
  /\ prevValueWrite s = snd (last l (0, 0)).
Proof.
  intros Hl.
  assert (Hgen : forall w, writer_wf w -> writer_wf (AppendAll w l)
            /\ prevValueWrite (AppendAll w l)
               = snd (last l (0, prevValueWrite w))).
  { induction Hl as [|[t v] l Hv _ IH]; intros w Hwf; [split; auto|].
    cbn [AppendAll fold_left fst snd] in *.
    change (fold_left _ l ?s) with (AppendAll s l).
    assert (Hwf' : writer_wf (Append w t v)).
    { apply appendValue_writer_wf; [|exact Hv].
      now apply appendTimestamp_writer_wf. }
    destruct (IH _ Hwf') as [H1 H2]. split; [exact H1|].
    rewrite H2. unfold Append at 1. rewrite appendValue_prevValueWrite.
    rewrite last_cons_default. apply snd_last_default. }
  destruct (Hgen newSeries writer_wf_newSeries) as [(Hpv & H1 & H2 & H3) Hval].
  cbv zeta. unfold prev_block_width.
  repeat split; try lia. exact Hval.
Qed.

Lemma writer_block_in_word_witness :
  let s := AppendAll newSeries
             [(1440583200, float64_of_pos 761);
              (1440583260, float64_of_pos 727)] in
  0 <= prevLeadingWrite s <= 31
  /\ 0 <= prevTrailingWrite s
  /\ prevLeadingWrite s + prevTrailingWrite s <= 63
  /\ 1 <= prev_block_width s <= 64
  /\ prevValueWrite s
     = snd (last [(1440583200, float64_of_pos 761);
                  (1440583260, float64_of_pos 727)] (0, 0)).
Proof.
  apply (writer_block_in_word [(1440583200, float64_of_pos 761);
                               (1440583260, float64_of_pos 727)]).
  repeat constructor; vm_compute; discriminate.
Defined.

(** ** The first value and the lost frame *)

(** X10.  Frame of the first value.  The first value [c] of a series is
    written as a single [0] bit when its bit pattern is zero; as the control
    bits [1], [1] and all 64 bits of the pattern when its block (the bits
    between the leading zeros, at most 31 counted, and the trailing zeros)
    is wider than 53 bits; and otherwise as [1], [0], the 5-bit leading
    count, the 6-bit block size minus one and the block. *)
Theorem first_value_frame_format (c : Z) :
  0 <= c < 2 ^ 64 ->
  value_bits newSeries c
  = if c =? 0 then [false]
    else if 53 <? block_size c then [true; true] ++ bits_of 64 c
    else [true; false] ++ bits_of 5 (leading_of c)
         ++ bits_of 6 (block_size c - 1)
         ++ bits_of (Z.to_nat (block_size c)) (Z.shiftr c (Ctz c)).
Proof.
  intros Hc. unfold value_bits.
  assert (Hx : Z.lxor c (prevValueWrite newSeries) = c)
    by apply Z.lxor_0_r.
  destruct (Z.eqb_spec c 0) as [E | E].
  - rewrite appendValue_same by (rewrite Hx; exact E).
    apply written_wrote.
  - pose proof (appendValue_changed newSeries c writer_wf_newSeries Hc)
      as Happ.
    rewrite Hx in Happ. specialize (Happ E). cbv zeta in Happ.
    rewrite Happ.
    assert (Hxr : 0 < c < 2 ^ 64) by lia.
    pose proof (leading_of_spec c Hxr) as (Hl & _ & _).
    pose proof (Ctz_spec c (proj1 Hxr)) as (Hct & _ & _).
    assert (Hcond : reuse_cond newSeries c = (53 <? block_size c)).
    { unfold reuse_cond, prev_block_width. cbn [prevLeadingWrite
        prevTrailingWrite newSeries].
      destruct (Z.leb_spec 0 (leading_of c)); [|lia].
      destruct (Z.leb_spec 0 (Ctz c)); [|lia]. cbn [andb].
      destruct (Z.ltb_spec (64 - 0 - 0) (5 + 6 + block_size c));
        destruct (Z.ltb_spec 53 (block_size c)); lia || reflexivity. }
    rewrite Hcond. destruct (53 <? block_size c).
    + rewrite (written_fields newSeries (reuse_frame newSeries c))
        by reflexivity.
      unfold reuse_frame, prev_block_width.
      cbn [prevLeadingWrite prevTrailingWrite newSeries].
      rewrite Z.shiftr_0_r. reflexivity.
    + rewrite (written_fields newSeries (fresh_frame c)) by reflexivity.
      reflexivity.
Qed.

Lemma first_value_frame_format_witness :
  value_bits newSeries 0x3FB999999999999A
  = if 0x3FB999999999999A =? 0 then [false]
    else if 53 <? block_size 0x3FB999999999999A
    then [true; true] ++ bits_of 64 0x3FB999999999999A
    else [true; false] ++ bits_of 5 (leading_of 0x3FB999999999999A)
         ++ bits_of 6 (block_size 0x3FB999999999999A - 1)
         ++ bits_of (Z.to_nat (block_size 0x3FB999999999999A))
              (Z.shiftr 0x3FB999999999999A (Ctz 0x3FB999999999999A)).
Proof. apply (first_value_frame_format 0x3FB999999999999A). lia. Defined.

(** X11.  The lost frame.  For a timestamp that is not the first and whose
    adjusted delta of delta is at least [2^31] in magnitude (and below
    [2^53], where the conversion to [float64] is exact), [appendTimestamp]
    writes no bit, yet records the timestamp and its delta as if it had:
    [prevTimeWrite] and [prevTimeDeltaWrite] are updated. *)
Theorem large_dd_writes_nothing (s : Series) (timestamp : Z) :
  StreamLen (Bs s) <> 0 ->
  2 ^ 31 <= Z.abs (adj_dd (ts_dd s timestamp)) < 2 ^ 53 ->
  let s' := appendTimestamp s timestamp in
  Bs s' = Bs s
  /\ ts_bits s timestamp = []
  /\ prevTimeWrite s' = timestamp
  /\ prevTimeDeltaWrite s' = ts_delta s timestamp.
Proof.
  intros Hlen Habs. cbv zeta. unfold ts_bits.
  rewrite (appendTimestamp_out_of_range s timestamp Hlen Habs).
  repeat split. unfold written. fields. apply skipn_all.
Qed.

Lemma large_dd_writes_nothing_witness :
  let s := Append newSeries 0 0 in
  let s' := appendTimestamp s 4000000000 in
  Bs s' = Bs s
  /\ ts_bits s 4000000000 = []
  /\ prevTimeWrite s' = 4000000000
  /\ prevTimeDeltaWrite s' = ts_delta s 4000000000.
Proof.
  apply (large_dd_writes_nothing (Append newSeries 0 0) 4000000000).
  - vm_compute. discriminate.
  - vm_compute. split; [discriminate | reflexivity].
Defined.

(** ** Frames fit their fields *)

(** X12.  Timestamp frame in range.  For a timestamp that is not the first,
    with a non-zero delta of delta whose adjusted value [a] is below [2^31]
    in magnitude, [appendTimestamp] writes exactly one frame: the control
    prefix of the first row of the table with [|a| < 2^(bitsForvalue - 1)],
    then the payload [a + 2^(bitsForvalue - 1)], which fits [bitsForvalue]
    bits; and it records the timestamp and its delta. *)
Theorem timestamp_frame_in_range (s : Series) (timestamp : Z) :
  StreamLen (Bs s) <> 0 ->
  ts_dd s timestamp <> 0 ->
  Z.abs (adj_dd (ts_dd s timestamp)) < 2 ^ 31 ->
  let a := adj_dd (ts_dd s timestamp) in
  let i := bucket (Z.abs a) in
  let e := enc i in
  ts_bits s timestamp
  = bits_of (Z.to_nat (controlValueBitLength e)) (controlValue e)
    ++ bits_of (Z.to_nat (bitsForvalue e)) (a + 2 ^ (bitsForvalue e - 1))
  /\ 0 <= i <= 3
  /\ Z.abs a < 2 ^ (bitsForvalue e - 1)
  /\ (forall j, 0 <= j < i -> 2 ^ (bitsForvalue (enc j) - 1) <= Z.abs a)
  /\ 0 < a + 2 ^ (bitsForvalue e - 1) < 2 ^ bitsForvalue e
  /\ prevTimeWrite (appendTimestamp s timestamp) = timestamp
  /\ prevTimeDeltaWrite (appendTimestamp s timestamp)
     = ts_delta s timestamp.
Proof.
  intros Hlen Hdd Habs a i e.
  assert (Ha : 0 <= Z.abs a < 2 ^ 31) by (subst a; lia).
  destruct (bucket_smallest _ Ha) as (Hi & Hfit & Hmin).
  destruct (payload_range _ Habs) as [Hpay _].
  unfold ts_bits. rewrite (appendTimestamp_frame s timestamp Hlen Hdd Habs).
  split.
  - change (written s _)
      with (written s (wrote s (ts_frame (ts_dd s timestamp)))).
    rewrite written_wrote. reflexivity.
  - repeat split; try assumption; try apply Hi; apply Hpay.
Qed.

Lemma timestamp_frame_in_range_witness :
  let s := Append newSeries 1440583200 (float64_of_pos 761) in
  let a := adj_dd (ts_dd s 1440583400) in
  let i := bucket (Z.abs a) in
  let e := enc i in
  ts_bits s 1440583400
  = bits_of (Z.to_nat (controlValueBitLength e)) (controlValue e)
    ++ bits_of (Z.to_nat (bitsForvalue e)) (a + 2 ^ (bitsForvalue e - 1))
  /\ 0 <= i <= 3
  /\ Z.abs a < 2 ^ (bitsForvalue e - 1)
  /\ (forall j, 0 <= j < i -> 2 ^ (bitsForvalue (enc j) - 1) <= Z.abs a)
  /\ 0 < a + 2 ^ (bitsForvalue e - 1) < 2 ^ bitsForvalue e
  /\ prevTimeWrite (appendTimestamp s 1440583400) = 1440583400
  /\ prevTimeDeltaWrite (appendTimestamp s 1440583400)
     = ts_delta s 1440583400.
Proof.
  apply (timestamp_frame_in_range
           (Append newSeries 1440583200 (float64_of_pos 761)) 1440583400).
  - vm_compute. discriminate.
  - vm_compute. discriminate.
  - vm_compute. reflexivity.
Defined.

(** X13.  Fresh frame fields.  For every non-zero 64-bit XOR [x], the fields
    [appendValue] writes in a frame of its own fit their widths: the leading
    count, clamped to 31, fits 5 bits; the block size is between 1 and 64,
    so that the size minus one fits 6 bits; the block [x >> trailing] fits
    [block size] bits; and shifting the block back left by [trailing] gives
    [x] again, also when [x] has more than 31 leading zeros. *)
Theorem fresh_frame_fields_fit (x : Z) :
  0 < x < 2 ^ 64 ->
  0 <= leading_of x < 2 ^ 5
  /\ leading_of x <= Clz x
  /\ 1 <= block_size x <= 64
  /\ 0 <= block_size x - 1 < 2 ^ 6
  /\ 0 <= Z.shiftr x (Ctz x) < 2 ^ block_size x
  /\ shl64 (shr64 x (Ctz x)) (Ctz x) = x.
Proof.
  intros Hx.
  pose proof (leading_of_spec x Hx) as (Hl & Hlc & Hlt).
  pose proof (Ctz_spec x (proj1 Hx)) as (Hct & Hlow & _).
  pose proof (Clz_Ctz_sum x Hx) as Hcs.
  pose proof (block_size_range x Hx) as Hbs.
  assert (Hfit : 0 <= Z.shiftr x (Ctz x) < 2 ^ block_size x).
  { apply shiftr_fits; try lia.
    replace (block_size x + Ctz x) with (64 - leading_of x)
      by (unfold block_size; ring).
    lia. }
  repeat split; try lia.
  unfold shl64, shr64. destruct (Z.ltb_spec (Ctz x) 64); [|lia].
  rewrite shift_roundtrip by assumption. apply wrap64_small. lia.
Qed.

Lemma fresh_frame_fields_fit_witness :
  0 <= leading_of 1 < 2 ^ 5
  /\ leading_of 1 <= Clz 1
  /\ 1 <= block_size 1 <= 64
  /\ 0 <= block_size 1 - 1 < 2 ^ 6
  /\ 0 <= Z.shiftr 1 (Ctz 1) < 2 ^ block_size 1
  /\ shl64 (shr64 1 (Ctz 1)) (Ctz 1) = 1.
Proof. apply (fresh_frame_fields_fit 1). lia. Defined.

(** ** The driver *)

Section Driver.
Import Main.

Lemma appendData_AppendAll (data : list Point) (s : Series) :
  appendData data s = AppendAll s (samples data).
Proof.
  revert s. induction data as [|p data IH]; intros s; [reflexivity|].
  cbn [appendData samples map AppendAll fold_left fst snd].
  apply IH.
Qed.

Lemma float64_ne_same (v : Z) : isNaN v = false -> float64_ne v v = false.
Proof.
  intros H. unfold float64_ne. rewrite H, Z.eqb_refl. reflexivity.
Qed.

(** When the reads return the points, the second loop prints nothing. *)
Lemma readBack_quiet (data : list Point) (i : Z) (r r' : Series) :
  Forall (fun p => isNaN (V p) = false) data ->
  ReadN (length data) r = (results (samples data), r') ->
  readBack i data r = ([], r').
Proof.
  intros Hnan. revert i r.
  induction Hnan as [|p data Hp _ IH]; intros i r Hrun.
  - cbn in Hrun. injection Hrun as <-. reflexivity.
  - cbn [length ReadN samples map results fst snd] in Hrun.
    cbn [readBack].
    destruct (Read r) as [res r1].
    destruct (ReadN (length data) r1) as [rs r2] eqn:E.
    injection Hrun as -> -> ->.
    rewrite (IH (i + 1) r1 E).
    rewrite Z.eqb_refl, (float64_ne_same _ Hp). reflexivity.
Qed.

End Driver.

(** X14.  The driver.  Run on an array of points whose first timestamp is
    below [2^32], whose later timestamps are each at less than [2^30] from
    the one before and whose values are not NaN, [main] reports no failed
    read and no point that differs: it prints one line only, the ratio of
    the bits of the stream to the 96 bits per point of the input. *)
Theorem main_prints_only_the_ratio (data : list Main.Point) :
  gentle (samples data) ->
  Forall (fun p => Main.isNaN (Main.V p) = false) data ->
  Main.main_on data
  = [Main.PrintRatio
       (NumBits (Bs (AppendAll newSeries (samples data))))
       (Z.of_nat (length data) * 12 * 8)].
Proof.
  intros Hg Hnan. apply gentle_samples_ok in Hg.
  destruct (ReadN_AppendAll (samples data) newSeries
              (AppendAll newSeries (samples data)) []
              writer_wf_newSeries Hg (synced_fresh (samples data)))
    as (r' & Hr & Hs).
  unfold Main.main_on. rewrite appendData_AppendAll.
  assert (Hlen : length (samples data) = length data)
    by apply length_map.
  rewrite Hlen in Hr.
  rewrite (readBack_quiet data 0 _ r' Hnan Hr). cbn [app].
  unfold NumBits. rewrite (sync_bits _ _ _ Hs), app_nil_r. reflexivity.
Qed.

Lemma main_prints_only_the_ratio_witness :
  Main.main_on Main.TestData
  = [Main.PrintRatio
       (NumBits (Bs (AppendAll newSeries (samples Main.TestData))))
       (Z.of_nat (length Main.TestData) * 12 * 8)].
Proof.
  apply (main_prints_only_the_ratio Main.TestData).
  - vm_compute. repeat split; discriminate.
  - unfold Main.TestData.
    repeat (constructor; [vm_compute; reflexivity|]). constructor.
Defined.

(** On its own array of 120 points [main] prints the ratio 1519 / 11520,
    which is below 0.2. *)
Example main_ratio :
  Main.main = [Main.PrintRatio 1519 11520] /\ 1519 * 5 < 11520.
Proof. vm_compute. split; reflexivity. Qed.
